(** * The MiniZinc command line driver ([minizinc/CLI/driver.py])

    A shallow embedding of [to_python_type] and of [CLIDriver], and the
    properties of both that the specification of the driver states.

    Python values are modelled as follows.
    - [str] is [string]; [bytes] is [list byte].
    - A [dict] decoded from JSON is a [gmap string value].
    - A call that may raise returns an [outcome]; a call that also writes to
      the logger, to the warnings machinery, to the solver's configuration
      scope or to the process table returns the list of [event]s it caused,
      in order, next to its outcome.
    - What the driver only calls (the file system, the operating system's
      processes, [parse_error], the solver object, the UTF-8 codec,
      [required_version]) is a field of the class [Host]. *)

From Stdlib Require Import ZArith Strings.String Strings.Ascii Strings.Byte
  Numbers.DecimalString.
From Stdlib Require Import Numbers.DecimalPos.
From stdpp Require Import base gmap strings list.

(** ** Outcomes of Python calls *)

(** The built-in exceptions this file can raise by itself. *)
Inductive builtin_exn : Type :=
  | KeyError (key : string)
  | TypeError (msg : string)
  | AttributeError (msg : string)
  | AssertionError
  | UnicodeDecodeError
  | OSError (errno : Z).

(** [Return a]: the call returned [a]. [Raise x]: it raised [x].
    [Blocked]: it never came back to its caller. *)
Inductive outcome (X A : Type) : Type :=
  | Return (a : A)
  | Raise (x : X)
  | Blocked.
Arguments Return {X A} a.
Arguments Raise {X A} x.
Arguments Blocked {X A}.

Definition returns {X A} (o : outcome X A) : Prop := ∃ a, o = Return a.

(** ** Strings *)

(** [sub in s] on Python strings. *)
Definition contains (sub s : string) : Prop :=
  ∃ pre suf, s = pre +:+ sub +:+ suf.

(** [sep.join(l)] *)
Fixpoint join (sep : string) (l : list string) : string :=
  match l with
  | [] => EmptyString
  | [x] => x
  | x :: rest => x +:+ sep +:+ join sep rest
  end.

(** [str(z)] and [repr(z)] of an [int]. *)
Definition str_int (z : Z) : string := NilEmpty.string_of_int (Z.to_int z).

(** [repr] of a tuple of integers: [()], [(2,)], [(2, 6, 0)]. *)
Definition repr_tuple (t : list Z) : string :=
  match t with
  | [] => "()"
  | [x] => "(" +:+ str_int x +:+ ",)"
  | _ => "(" +:+ join ", " (map str_int t) +:+ ")"
  end.

(** ** [to_python_type] *)

Module ToPythonType.

(** The values found under the keys of a type definition of
    [minizinc --model-interface-only]: JSON strings, booleans and integers,
    and [None] for JSON's [null]. JSON numbers with a fraction, arrays and
    objects are not among them. *)
Inductive value : Type :=
  | VNone
  | VBool (b : bool)
  | VInt (z : Z)
  | VStr (s : string).

(** The [typing] objects the function builds. *)
Inductive typ : Type :=
  | TBool
  | TFloat
  | TInt
  | TRange
  | TSet (t : typ)
  | TUnion (a b : typ)
  | TList (t : typ).

Global Instance typ_eq_dec : EqDecision typ.
Proof. solve_decision. Defined.

Inductive category : Type := FutureWarning.

Record warning : Type := Warning { w_message : string; w_category : category }.

(** [v == s] for a string literal [s]. *)
Definition eq_str (v : value) (s : string) : bool :=
  match v with
  | VStr t => String.eqb t s
  | _ => false
  end.

(** The truth value of [v], as [if v:] takes it. *)
Definition truthy (v : value) : bool :=
  match v with
  | VNone => false
  | VBool b => b
  | VInt z => negb (z =? 0)%Z
  | VStr s => negb (String.eqb s EmptyString)
  end.

(** [f"{v}"] *)
Definition format (v : value) : string :=
  match v with
  | VNone => "None"
  | VBool true => "True"
  | VBool false => "False"
  | VInt z => str_int z
  | VStr s => s
  end.

(** The integer an [int] or a [bool] stands for in [dim >= 1] and
    [dim -= 1]; the comparison raises [TypeError] on [None] and [str]. *)
Definition as_int (v : value) : outcome builtin_exn Z :=
  match v with
  | VInt z => Return z
  | VBool b => Return (if b then 1 else 0)%Z
  | VNone =>
      Raise (TypeError "'>=' not supported between instances of 'NoneType' and 'int'")
  | VStr _ =>
      Raise (TypeError "'>=' not supported between instances of 'str' and 'int'")
  end.

Definition unknown_type_message (basetype : value) : string :=
  "Unable to determine minizinc type `" +:+ format basetype
    +:+ "` assuming integer type".

(** The warning of the [else] branch. *)
Definition unknown_type_warning (basetype : value) : warning :=
  Warning (unknown_type_message basetype) FutureWarning.

(** Lines 37-48: the base type, with the warning of the [else] branch. *)
Definition base_type (basetype : value) : list warning * typ :=
  if eq_str basetype "bool" then ([], TBool)
  else if eq_str basetype "float" then ([], TFloat)
  else if eq_str basetype "int" then ([], TInt)
  else ([unknown_type_warning basetype], TInt).

(** Lines 50-54: [mzn_type.get("set", False)]. *)
Definition wrap_set (mzn_type : gmap string value) (pytype : typ) : typ :=
  if truthy (default (VBool false) (mzn_type !! "set")) then
    if decide (pytype = TInt) then TUnion (TSet TInt) TRange
    else TSet pytype
  else pytype.

(** Lines 57-60: [while dim >= 1: pytype = List[pytype]; dim -= 1], run for
    at most [fuel] iterations. *)
Fixpoint while_dim (fuel : nat) (dim : Z) (pytype : typ) : typ :=
  match fuel with
  | O => pytype
  | S fuel' =>
      if (1 <=? dim)%Z then while_dim fuel' (dim - 1) (TList pytype)
      else pytype
  end.

(** The whole function. The loop gets [Z.to_nat dim] iterations, which
    [while_dim_enough] below shows to be all it ever makes. *)
Definition to_python_type (mzn_type : gmap string value)
  : list warning * outcome builtin_exn typ :=
  match mzn_type !! "type" with
  | None => ([], Raise (KeyError "type"))
  | Some basetype =>
      let '(ws, pytype) := base_type basetype in
      let pytype := wrap_set mzn_type pytype in
      match as_int (default (VInt 0) (mzn_type !! "dim")) with
      | Return dim => (ws, Return (while_dim (Z.to_nat dim) dim pytype))
      | Raise e => (ws, Raise e)
      | Blocked => (ws, Blocked)
      end
  end.

(** A type name the function does not know. *)
Definition unknown (basetype : value) : Prop :=
  basetype ≠ VStr "bool" ∧ basetype ≠ VStr "float" ∧ basetype ≠ VStr "int".

(** [{"type": "int"}], [{"type": "int", "set": true}] and
    [{"type": "bool", "dim": 2}] *)
Definition int_type : gmap string value := {["type" := VStr "int"]}.
Definition int_set_type : gmap string value :=
  <["set" := VBool true]> {["type" := VStr "int"]}.
Definition bool_matrix_type : gmap string value :=
  <["dim" := VInt 2]> {["type" := VStr "bool"]}.

(** [Union[Set[int], range]] *)
Definition int_set : typ := TUnion (TSet TInt) TRange.

(** [{"type": "enum", "dim": 1}] and [{"type": "enum", "set": true,
    "dim": 1}] *)
Definition enum_array_type : gmap string value :=
  <["dim" := VInt 1]> {["type" := VStr "enum"]}.
Definition enum_set_array_type : gmap string value :=
  <["set" := VBool true]> enum_array_type.
Definition enum_set_type : gmap string value :=
  <["set" := VBool true]> {["type" := VStr "enum"]}.

End ToPythonType.

(** ** The pattern of [check_version] *)

Module VersionPattern.

Definition bytes : Type := list byte.

(** [\d] of a bytes pattern: the ASCII digits only. *)
Definition is_digit (b : byte) : bool :=
  (48 <=? Byte.to_N b)%N && (Byte.to_N b <=? 57)%N.

(** [int(g)] for a group [g] of digits. *)
Definition int_of_digits (g : bytes) : Z :=
  fold_left (λ acc b, 10 * acc + (Z.of_N (Byte.to_N b) - 48))%Z g 0%Z.

(** The literal text the pattern starts with. *)
Definition literal : bytes := list_byte_of_string "version ".

Definition dot : byte := "."%byte.

(** [s] without the prefix [p], when it has that prefix. *)
Fixpoint strip_prefix (p s : bytes) : option bytes :=
  match p, s with
  | [], _ => Some s
  | _ :: _, [] => None
  | a :: p', b :: s' => if Byte.eqb a b then strip_prefix p' s' else None
  end.

(** The longest run of digits [s] starts with, and what follows it. *)
Fixpoint span_digits (s : bytes) : bytes * bytes :=
  match s with
  | [] => ([], [])
  | b :: s' =>
      if is_digit b then let '(d, r) := span_digits s' in (b :: d, r)
      else ([], s)
  end.

(** [(\d+)]: greedy, and at least one digit. *)
Definition group (s : bytes) : option (bytes * bytes) :=
  match span_digits s with
  | ([], _) => None
  | (d, r) => Some (d, r)
  end.

(** [\.] *)
Definition expect_dot (s : bytes) : option bytes :=
  match s with
  | b :: r => if Byte.eqb b dot then Some r else None
  | [] => None
  end.

(** The pattern [version (\d+)\.(\d+)\.(\d+)] matched at the start of [s]:
    its three groups. *)
Definition match_here (s : bytes) : option (bytes * bytes * bytes) :=
  r ← strip_prefix literal s;
  '(g1, r) ← group r;
  r ← expect_dot r;
  '(g2, r) ← group r;
  r ← expect_dot r;
  '(g3, _) ← group r;
  Some (g1, g2, g3).

(** [re.search(rb"version (\d+)\.(\d+)\.(\d+)", s)]: the groups of the match
    at the first position that has one, [None] when no position has. *)
Fixpoint search (s : bytes) : option (bytes * bytes * bytes) :=
  match match_here s with
  | Some g => Some g
  | None =>
      match s with
      | [] => None
      | _ :: s' => search s'
      end
  end.

(** What the pattern means: a run of digits, and the text of a match with
    its groups. *)
Definition digits (g : bytes) : Prop := g ≠ [] ∧ Forall (λ b, is_digit b = true) g.

Definition matched (m g1 g2 g3 : bytes) : Prop :=
  m = literal ++ g1 ++ dot :: g2 ++ dot :: g3
  ∧ digits g1 ∧ digits g2 ∧ digits g3.


(** The same pattern with its dots left unescaped, where [.] stands for any
    byte but a newline. The driver does not use it. *)
Definition any_byte (b : byte) : Prop := b ≠ "010"%byte.

Definition matched_unescaped (m g1 g2 g3 : bytes) : Prop :=
  ∃ c1 c2, m = literal ++ g1 ++ c1 :: g2 ++ c2 :: g3
  ∧ any_byte c1 ∧ any_byte c2 ∧ digits g1 ∧ digits g2 ∧ digits g3.

End VersionPattern.

(** [a < b] on tuples of integers: the first position where they differ
    decides, and a proper prefix is smaller. *)
Fixpoint tuple_lt (a b : list Z) : bool :=
  match a, b with
  | [], [] => false
  | [], _ :: _ => true
  | _ :: _, [] => false
  | x :: a', y :: b' => if (x =? y)%Z then tuple_lt a' b' else (x <? y)%Z
  end.
Arguments tuple_lt : simpl never.

(** ** [CLIDriver] *)

Module CLI.

Import VersionPattern.

(** [None] (inherit) or [subprocess.PIPE] for a stream of the child. *)
Inductive redirect : Type := Inherit | PIPE.

(** The child the operating system starts for a command:
    - [Exits elapsed rc out err]: it runs for [elapsed] seconds and exits
      with status [rc], having written [out] and [err];
    - [Lingers]: it never exits by itself;
    - [Unspawnable errno]: the operating system does not start it. *)
Inductive life (float : Type) : Type :=
  | Exits (elapsed : float) (returncode : Z) (out err : bytes)
  | Lingers
  | Unspawnable (errno : Z).
Arguments Exits {float} elapsed returncode out err.
Arguments Lingers {float}.
Arguments Unspawnable {float} errno.

(** The collaborators of the driver. *)
Class Host : Type := {
  (** [pathlib.Path], [str(path)] and [path.exists()] *)
  Path : Type;
  str_path : Path → string;
  path_exists : Path → bool;
  (** arguments that are not strings, and their [str(arg)] *)
  Other : Type;
  str_other : Other → string;
  (** [datetime.timedelta], [float], [timedelta.total_seconds()],
      [str(float)] and [<] on floats *)
  timedelta : Type;
  float : Type;
  total_seconds : timedelta → float;
  str_float : float → string;
  float_lt : float → float → bool;
  (** [minizinc.error.MiniZincError] and [minizinc.error.parse_error] *)
  MiniZincError : Type;
  parse_error : bytes → MiniZincError;
  (** [minizinc.Solver], and the token its [configuration()] yields *)
  Solver : Type;
  configuration : Solver → string;
  (** the child of a command that [subprocess.run] starts *)
  child : list string → life float;
  (** [asyncio.subprocess.Process], and the handle (or the [errno]) that
      [asyncio.create_subprocess_exec] gives for a command *)
  Process : Type;
  exec : list string → Process + Z;
  (** [bytes.decode()], [None] where the bytes are not UTF-8 *)
  decode : bytes → option string;
  (** [minizinc.driver.required_version] *)
  required_version : list Z
}.

Section Driver.
Context `{Host}.

(** [List[Any]]: strings, and whatever else [str()] takes. *)
Inductive arg : Type :=
  | Str (s : string)
  | Obj (o : Other).

Definition str (a : arg) : string :=
  match a with
  | Str s => s
  | Obj o => str_other o
  end.

Inductive exn : Type :=
  | Builtin (e : builtin_exn)
  | ConfigurationError (msg : string)
  | Parsed (e : MiniZincError)
  | TimeoutExpired (cmd : list string) (timeout : option float).

(** What a call does to the world around the driver. *)
Inductive event : Type :=
  | Acquire (conf : string)
  | Release (conf : string)
  | Debug (msg : string)
  | Run (cmd : list string) (stdin stdout stderr : redirect)
      (timeout : option float)
  | Spawn (cmd : list string) (stdin stdout stderr : redirect)
  | Exit (returncode : Z)
  | Kill.

(** A call: the events it causes, in order, and how it ends. *)
Definition M (A : Type) : Type := list event * outcome exn A.

Definition ret {A} (a : A) : M A := ([], Return a).
Definition raise {A} (x : exn) : M A := ([], Raise x).
Definition emit (e : event) : M unit := ([e], Return tt).

Definition bind {A B} (m : M A) (f : A → M B) : M B :=
  match m with
  | (t, Return a) => let '(t', o) := f a in (t ++ t', o)
  | (t, Raise x) => (t, Raise x)
  | (t, Blocked) => (t, Blocked)
  end.

Definition trace {A} (m : M A) : list event := m.1.
Definition result {A} (m : M A) : outcome exn A := m.2.

(** [subprocess.CompletedProcess] *)
Record CompletedProcess : Type := {
  args : list string;
  returncode : Z;
  stdout : bytes;
  stderr : bytes
}.

(** A child that runs for [elapsed] seconds is still running when the
    timeout, if there is one, elapses. *)
Definition expires (elapsed : float) (timeout : option float) : bool :=
  match timeout with
  | None => false
  | Some t => float_lt t elapsed
  end.

(** The child outlives a timeout of [t] seconds. *)
Definition overruns (l : life float) (t : float) : bool :=
  match l with
  | Exits elapsed _ _ _ => float_lt t elapsed
  | Lingers => true
  | Unspawnable _ => false
  end.

(** [subprocess.run(cmd, stdin=None, stdout=PIPE, stderr=PIPE, timeout=t)],
    as the library documents it: it waits for the child to exit and returns
    its status and outputs; when a timeout is given and elapses first it
    kills the child, waits for it and raises [TimeoutExpired]; without a
    child it raises [OSError]. *)
Definition subprocess_run (cmd : list string) (timeout : option float)
  : M CompletedProcess :=
  let call := Run cmd Inherit PIPE PIPE timeout in
  match child cmd with
  | Unspawnable errno => ([call], Raise (Builtin (OSError errno)))
  | Lingers =>
      match timeout with
      | None => ([call], Blocked)
      | Some _ => ([call; Kill], Raise (TimeoutExpired cmd timeout))
      end
  | Exits elapsed rc out err =>
      if expires elapsed timeout then
        ([call; Kill], Raise (TimeoutExpired cmd timeout))
      else
        ([call; Exit rc],
         Return {| args := cmd; returncode := rc;
                   stdout := out; stderr := err |})
  end.

(** [await asyncio.create_subprocess_exec(program, arguments..., stdin=None,
    stdout=PIPE, stderr=PIPE)], with [cmd] for the program and its
    arguments: the handle of the started child, which it does not wait
    for. *)
Definition create_subprocess_exec (cmd : list string) : M Process :=
  let call := Spawn cmd Inherit PIPE PIPE in
  match exec cmd with
  | inl proc => ([call], Return proc)
  | inr errno => ([call], Raise (Builtin (OSError errno)))
  end.

(** Modelled from the spec: [Solver.configuration], the context manager of
    the solver, is not among the sources. The specification has it yield a
    string token that is valid within the scope and released when the scope
    is left, on a return as on an exception. *)
Definition with_configuration {A} (solver : Solver) (body : string → M A)
  : M A :=
  let conf := configuration solver in
  let '(t, o) := body conf in
  (Acquire conf :: t ++
     match o with
     | Blocked => []
     | _ => [Release conf]
     end, o).

Record CLIDriver : Type := { _executable : Path }.

(** Modelled from the spec: [Driver.__init__] of the base class is not among
    the sources. The specification has construction make no validation but
    that of the path. *)
Definition Driver_init (self : CLIDriver) : M unit := ret tt.

(** [CLIDriver(executable)] *)
Definition __init__ (executable : Path) : M CLIDriver :=
  let self := {| _executable := executable |} in
  if path_exists (_executable self) then
    bind (Driver_init self) (λ _, ret self)
  else raise (Builtin AssertionError).

Definition dquote : string := String (ascii_of_nat 34) EmptyString.

(** [f"{timeout_flt}"] *)
Definition format_timeout (timeout_flt : option float) : string :=
  match timeout_flt with
  | None => "None"
  | Some t => str_float t
  end.

Definition run_message (cmd : list string) (timeout_flt : option float)
  : string :=
  "CLIDriver:run -> command: " +:+ dquote +:+ join " " cmd +:+ dquote
    +:+ ", timeout " +:+ format_timeout timeout_flt.

(** [CLIDriver.run] *)
Definition run (self : CLIDriver) (args : list arg) (solver : option Solver)
    (timeout : option timedelta) : M CompletedProcess :=
  let timeout_flt := total_seconds <$> timeout in
  bind
    match solver with
    | None =>
        let cmd :=
          [str_path (_executable self); "--allow-multiple-assignments"]
            ++ map str args in
        bind (emit (Debug (run_message cmd timeout_flt))) (λ _,
        subprocess_run cmd timeout_flt)
    | Some solver =>
        with_configuration solver (λ conf,
          let cmd :=
            [str_path (_executable self); "--solver"; conf;
             "--allow-multiple-assignments"] ++ map str args in
          bind (emit (Debug (run_message cmd timeout_flt))) (λ _,
          subprocess_run cmd timeout_flt))
    end
    (λ output,
      if decide (returncode output ≠ 0%Z) then
        raise (Parsed (parse_error (stderr output)))
      else ret output).

Definition create_process_message (program : string) (flags : string)
    (args : list arg) : string :=
  "CLIDriver:create_process -> program: " +:+ program +:+ " args: "
    +:+ dquote +:+ flags +:+ "--allow-multiple-assignments "
    +:+ join " " (map str args) +:+ dquote.

(** [CLIDriver.create_process] *)
Definition create_process (self : CLIDriver) (args : list arg)
    (solver : option Solver) : M Process :=
  match solver with
  | None =>
      bind (emit (Debug (create_process_message
                           (str_path (_executable self)) EmptyString args)))
        (λ _,
      create_subprocess_exec
        ([str_path (_executable self); "--allow-multiple-assignments"]
           ++ map str args))
  | Some solver =>
      with_configuration solver (λ conf,
        bind (emit (Debug (create_process_message
                             (str_path (_executable self))
                             ("--solver " +:+ conf +:+ " ") args)))
          (λ _,
        create_subprocess_exec
          ([str_path (_executable self); "--solver"; conf;
            "--allow-multiple-assignments"] ++ map str args)))
  end.

(** [CLIDriver.minizinc_version] *)
Definition minizinc_version (self : CLIDriver) : M string :=
  bind (run self [Str "--version"] None None) (λ output,
  match decode (stdout output) with
  | Some s => ret s
  | None => raise (Builtin UnicodeDecodeError)
  end).

Definition version_message (self : CLIDriver) (found : list Z) : string :=
  "The MiniZinc driver found at '" +:+ str_path (_executable self)
    +:+ "' has version " +:+ repr_tuple found
    +:+ ". The minimal required version is "
    +:+ repr_tuple required_version +:+ ".".

Definition no_groups : builtin_exn :=
  AttributeError "'NoneType' object has no attribute 'groups'".

(** [CLIDriver.check_version] *)
Definition check_version (self : CLIDriver) : M unit :=
  bind (run self [Str "--version"] None None) (λ output,
  match search (stdout output) with
  | None => raise (Builtin no_groups)
  | Some (g1, g2, g3) =>
      let found := map int_of_digits [g1; g2; g3] in
      if tuple_lt found required_version then
        raise (ConfigurationError (version_message self found))
      else ret tt
  end).

(** The commands a call hands to the operating system. *)
Definition commands (t : list event) : list (list string) :=
  omap (λ e, match e with
             | Run cmd _ _ _ _ | Spawn cmd _ _ _ => Some cmd
             | _ => None
             end) t.

(** The timeouts of the synchronous calls. *)
Definition timeouts (t : list event) : list (option float) :=
  omap (λ e, match e with
             | Run _ _ _ _ timeout => Some timeout
             | _ => None
             end) t.

(** The tokens a call acquires and releases. *)
Definition acquired (t : list event) : list string :=
  omap (λ e, match e with Acquire conf => Some conf | _ => None end) t.
Definition released (t : list event) : list string :=
  omap (λ e, match e with Release conf => Some conf | _ => None end) t.

(** The command line as the specification writes it:
    [<executable> [--solver <configToken>] --allow-multiple-assignments
    <args...>]. *)
Definition command_line (self : CLIDriver) (args : list arg)
    (solver : option Solver) : list string :=
  str_path (_executable self)
    :: match solver with
       | None => []
       | Some solver => ["--solver"; configuration solver]
       end
    ++ "--allow-multiple-assignments" :: map str args.

(** The token is released before the child exits: every [Release] of a
    trace comes before every [Exit] of it. *)
Definition released_before_exit (t : list event) : Prop :=
  ∀ i j conf rc,
    t !! i = Some (Release conf) → t !! j = Some (Exit rc) → i < j.

(** The two steps both branches of [run] share: the message to the logger
    with the call of [subprocess.run], and the look at the exit status. *)
Definition logged_run (cmd : list string) (t : option float)
  : M CompletedProcess :=
  bind (emit (Debug (run_message cmd t))) (λ _, subprocess_run cmd t).

Definition checked (output : CompletedProcess) : M CompletedProcess :=
  if decide (returncode output ≠ 0%Z) then
    raise (Parsed (parse_error (stderr output)))
  else ret output.

End Driver.

End CLI.

(** ** A host to run the driver on *)

Module Demo.

Import VersionPattern CLI.

Definition old_banner : bytes :=
  list_byte_of_string "MiniZinc to FlatZinc converter, version 2.5.0".
Definition new_banner : bytes :=
  list_byte_of_string "MiniZinc to FlatZinc converter, version 2.6.1, build 7".
Definition odd_banner : bytes :=
  list_byte_of_string "minizinc nightly build".
Definition syntax_error : bytes :=
  list_byte_of_string "Error: syntax error".
Definition solution : bytes :=
  list_byte_of_string "x = 3;".

Definition ends_with (cmd : list string) (s : string) : bool :=
  bool_decide (last cmd = Some s).

(** Three installations that answer [--version] differently, and models
    that fail, take a minute, never end or cannot be started. *)
Definition demo_child (cmd : list string) : life Z :=
  if ends_with cmd "--version" then
    if bool_decide (head cmd = Some "/opt/old/minizinc") then
      Exits 1%Z 0%Z old_banner []
    else if bool_decide (head cmd = Some "/opt/odd/minizinc") then
      Exits 1%Z 0%Z odd_banner []
    else Exits 1%Z 0%Z new_banner []
  else if ends_with cmd "broken.mzn" then Exits 1%Z 1%Z [] syntax_error
  else if ends_with cmd "slow.mzn" then Exits 60%Z 0%Z solution []
  else if ends_with cmd "loop.mzn" then Lingers
  else if ends_with cmd "ghost.mzn" then Unspawnable 2%Z
  else Exits 1%Z 0%Z solution [].

Definition demo : Host := {|
  Path := string;
  str_path := id;
  path_exists := λ p, bool_decide (p ≠ "/nowhere/minizinc");
  Other := Z;
  str_other := str_int;
  timedelta := Z;
  float := Z;
  total_seconds := id;
  str_float := λ t, str_int t +:+ ".0";
  float_lt := Z.ltb;
  MiniZincError := bytes;
  parse_error := id;
  Solver := string;
  configuration := λ solver, solver +:+ ".msc";
  child := demo_child;
  Process := list string;
  exec := λ cmd, if ends_with cmd "ghost.mzn" then inr 2%Z else inl cmd;
  decode := λ b, Some (string_of_list_byte b);
  required_version := [2; 6; 0]%Z
|}.

Definition driver (p : string) : @CLIDriver demo :=
  @Build_CLIDriver demo p.

(** The installations. *)
Definition minizinc : @CLIDriver demo := driver "/usr/bin/minizinc".
Definition old_minizinc : @CLIDriver demo := driver "/opt/old/minizinc".

End Demo.

(** ** More of [to_python_type]: what its results look like *)

Module ToPythonTypeShape.

Import ToPythonType.

(** A value that [dim >= 1] accepts: an [int] or a [bool]. *)
Definition numeric (v : value) : bool :=
  match v with
  | VInt _ | VBool _ => true
  | VNone | VStr _ => false
  end.

(** One of the three type names of lines 37-42. *)
Definition known (v : value) : bool :=
  eq_str v "bool" || eq_str v "float" || eq_str v "int".

(** The type under the [List]s of a type, and the number of these. *)
Fixpoint strip_lists (t : typ) : typ :=
  match t with
  | TList t' => strip_lists t'
  | _ => t
  end.

Fixpoint depth (t : typ) : nat :=
  match t with
  | TList t' => S (depth t')
  | _ => 0
  end.

(** The six types lines 37-54 can build. *)
Definition cores : list typ :=
  [TBool; TFloat; TInt; TSet TBool; TSet TFloat; int_set].

(** [f] under a [Return]. *)
Definition map_outcome {X A B} (f : A → B) (o : outcome X A) : outcome X B :=
  match o with
  | Return a => Return (f a)
  | Raise x => Raise x
  | Blocked => Blocked
  end.

(** [{"type": "float", "set": 1, "dim": true, "comment": null}] *)
Definition float_sets_type : gmap string value :=
  <["comment" := VNone]> (<["dim" := VBool true]>
    (<["set" := VInt 1]> {["type" := VStr "float"]})).

(** [{"type": "float", "set": "yes", "dim": 1}] *)
Definition float_set_array_type : gmap string value :=
  <["set" := VStr "yes"]> (<["dim" := VInt 1]> {["type" := VStr "float"]}).

(** [{"type": "enum", "dim": "two"}] *)
Definition bad_dim_type : gmap string value :=
  <["dim" := VStr "two"]> {["type" := VStr "enum"]}.

End ToPythonTypeShape.

(** ** [CLIDriver.make_default] *)

Module Package.

Import CLI.

Section Attributes.
Context `{Host}.

(** What an attribute of the package [minizinc] is bound to: a driver, the
    class [minizinc.CLI.CLIInstance], or something else. *)
Inductive object : Type :=
  | DriverObject (driver : CLIDriver)
  | CLIInstance
  | OtherObject (o : Other).

(** [CLIDriver.make_default], on the attributes of the package [minizinc]:
    [minizinc.default_driver = self] and then
    [minizinc.Instance = CLIInstance]. *)
Definition make_default (self : CLIDriver) (minizinc : gmap string object)
  : gmap string object :=
  <["Instance" := CLIInstance]> (<["default_driver" := DriverObject self]> minizinc).

End Attributes.

End Package.

(** ** A host that requires the version it has *)

Module Pinned.

Import CLI.

(** [Demo.demo] with [required_version = (2, 6, 1)], the version of the
    installation at [/usr/bin/minizinc]. *)
Definition pinned : Host := {|
  Path := @Path Demo.demo;
  str_path := @str_path Demo.demo;
  path_exists := @path_exists Demo.demo;
  Other := @Other Demo.demo;
  str_other := @str_other Demo.demo;
  timedelta := @timedelta Demo.demo;
  float := @float Demo.demo;
  total_seconds := @total_seconds Demo.demo;
  str_float := @str_float Demo.demo;
  float_lt := @float_lt Demo.demo;
  MiniZincError := @MiniZincError Demo.demo;
  parse_error := @parse_error Demo.demo;
  Solver := @Solver Demo.demo;
  configuration := @configuration Demo.demo;
  child := @child Demo.demo;
  Process := @Process Demo.demo;
  exec := @exec Demo.demo;
  decode := @decode Demo.demo;
  required_version := [2; 6; 1]%Z
|}.

Definition minizinc : @CLIDriver pinned :=
  @Build_CLIDriver pinned "/usr/bin/minizinc".

End Pinned.

(** ** Readings of a trace *)

Module Traces.

Import CLI.

Section Readings.
Context `{Host}.

(** The messages a call sends to the logger. *)
Definition messages (t : list event) : list string :=
  omap (λ e, match e with Debug msg => Some msg | _ => None end) t.

(** The call waits for a child, or ends one. *)
Definition waits (e : event) : bool :=
  match e with
  | Run _ _ _ _ _ | Exit _ | Kill => true
  | _ => false
  end.

(** The call starts a child, one way or the other. *)
Definition starts (e : event) : bool :=
  match e with
  | Run _ _ _ _ _ | Spawn _ _ _ _ => true
  | _ => false
  end.

(** The call enters or leaves the scope of a token. *)
Definition scopes (e : event) : bool :=
  match e with
  | Acquire _ | Release _ => true
  | _ => false
  end.

(** What [check_version] compares with [required_version] when the output
    of the version query matches. *)
Definition found_version (out : VersionPattern.bytes) : option (list Z) :=
  match VersionPattern.search out with
  | Some (g1, g2, g3) => Some (map VersionPattern.int_of_digits [g1; g2; g3])
  | None => None
  end.

(** What [check_version] makes of the output of the version query. *)
Definition verdict (self : CLIDriver) (out : VersionPattern.bytes)
  : outcome exn unit :=
  match found_version out with
  | None => Raise (Builtin no_groups)
  | Some found =>
      if tuple_lt found required_version then
        Raise (ConfigurationError (version_message self found))
      else Return tt
  end.

(** The bytes of [str(n)], and an output of the version query that spells
    the version [a.b.c] in decimal after [pre] and before [suf]. *)
Definition decimal (n : Z) : VersionPattern.bytes :=
  list_byte_of_string (str_int n).

Definition banner (pre : VersionPattern.bytes) (a b c : Z)
    (suf : VersionPattern.bytes) : VersionPattern.bytes :=
  pre ++ VersionPattern.literal ++ decimal a
    ++ VersionPattern.dot :: decimal b
    ++ VersionPattern.dot :: decimal c ++ suf.

(** No byte of [s] is a digit; [s] does not start with a digit. *)
Definition no_digit (s : VersionPattern.bytes) : Prop :=
  Forall (λ b, VersionPattern.is_digit b = false) s.

Definition no_digit_first (s : VersionPattern.bytes) : Prop :=
  ∀ b, head s = Some b → VersionPattern.is_digit b = false.

End Readings.

End Traces.

(** * Properties *)

(** ** [to_python_type] *)

Module ToPythonTypeSpec.

Import ToPythonType.

(** The loop wraps the type [max(dim, 0)] times, and more fuel than
    [Z.to_nat dim] changes nothing: the loop has stopped by itself. *)
Lemma while_dim_enough fuel dim t :
  Z.to_nat dim ≤ fuel → while_dim fuel dim t = Nat.iter (Z.to_nat dim) TList t.
Proof.
  revert dim t. induction fuel as [|fuel IH]; intros dim t Hle; simpl.
  - replace (Z.to_nat dim) with 0 by lia. done.
  - destruct (Z.leb_spec 1 dim) as [Hd|Hd].
    + rewrite IH by lia.
      replace (Z.to_nat dim) with (S (Z.to_nat (dim - 1))) by lia.
      by rewrite Nat.iter_succ_r.
    + replace (Z.to_nat dim) with 0 by lia. done.
Qed.

Lemma eq_str_false v s : v ≠ VStr s → eq_str v s = false.
Proof.
  destruct v as [| | |t]; simpl; try done.
  intros Hne. apply String.eqb_neq. congruence.
Qed.

Lemma base_type_unknown basetype :
  unknown basetype →
  base_type basetype
  = ([unknown_type_warning basetype], TInt).
Proof.
  intros (Hb & Hf & Hi). unfold base_type, unknown_type_warning.
  by rewrite !eq_str_false.
Qed.

(** On a dict with an unknown base type the function does what it does on
    the same dict with ["type": "int"], and warns. *)
Lemma to_python_type_unknown (d : gmap string value) basetype :
  d !! "type" = Some basetype → unknown basetype →
  to_python_type d
  = ([unknown_type_warning basetype],
     (to_python_type (<["type" := VStr "int"]> d)).2).
Proof.
  intros Hty Hun. unfold to_python_type.
  rewrite Hty, lookup_insert_eq, (base_type_unknown _ Hun).
  unfold wrap_set. rewrite !lookup_insert_ne by done.
  change (base_type (VStr "int")) with (@nil warning, TInt).
  by destruct (as_int _).
Qed.

(** Without ["type"] the function raises [KeyError]; with it, the only
    thing that can raise is [dim >= 1]. *)
Lemma to_python_type_raise (d : gmap string value) basetype e :
  d !! "type" = Some basetype →
  (to_python_type d).2 = Raise e →
  ∃ dim, d !! "dim" = Some dim ∧ as_int dim = Raise e.
Proof.
  intros Hty. unfold to_python_type. rewrite Hty.
  destruct (base_type basetype) as [ws t].
  destruct (d !! "dim") as [dim|] eqn:Hdim; simpl.
  - destruct (as_int dim) eqn:Has; simpl; try done.
    intros [= ->]. eauto.
  - done.
Qed.

Lemma to_python_type_return (d : gmap string value) basetype :
  d !! "type" = Some basetype →
  (∀ dim, d !! "dim" = Some dim → ∃ n, as_int dim = Return n) →
  ∃ t, (to_python_type d).2 = Return t.
Proof.
  intros Hty Hdim. unfold to_python_type. rewrite Hty.
  destruct (base_type basetype) as [ws t].
  destruct (d !! "dim") as [dim|]; simpl.
  - destruct (Hdim dim eq_refl) as [n ->]. eauto.
  - eauto.
Qed.

Lemma unknown_enum : unknown (VStr "enum").
Proof. by repeat split. Qed.

(** C3, as stated, fails: [{"type": "enum", "dim": "two"}] has a ["type"]
    that is none of ["bool"], ["float"] and ["int"], and the call raises
    the [TypeError] of ["two" >= 1], after the warning. *)
Lemma unknown_type_may_raise :
  ¬ ∀ (d : gmap string value) basetype,
      d !! "type" = Some basetype → unknown basetype →
      ∀ e, (to_python_type d).2 ≠ Raise e.
Proof.
  intros Hnever.
  by apply (Hnever ToPythonTypeShape.bad_dim_type (VStr "enum") eq_refl
              unknown_enum
              (TypeError
                 "'>=' not supported between instances of 'str' and 'int'")).
Qed.

(** C3, amended: [to_python_type] maps [{"type": "int"}] to [int],
    [{"type": "int", "set": true}] to [Union[Set[int], range]] and
    [{"type": "bool", "dim": 2}] to [List[List[bool]]]. For every dict
    whose ["type"] is not ["bool"], ["float"] or ["int"] the base type
    becomes [int] and one [FutureWarning] is emitted, and the unknown type
    by itself raises nothing: the call ends as it does on the same dict with
    ["type": "int"], it returns whenever ["dim"] is absent, an [int] or a
    [bool], and an exception it raises is that of [dim >= 1] on the value
    of ["dim"]. *)
Theorem to_python_type_spec :
  to_python_type int_type = ([], Return TInt)
  ∧ to_python_type int_set_type = ([], Return int_set)
  ∧ to_python_type bool_matrix_type = ([], Return (TList (TList TBool)))
  ∧ ∀ (d : gmap string value) basetype,
      d !! "type" = Some basetype → unknown basetype →
      base_type basetype = ([unknown_type_warning basetype], TInt)
      ∧ (to_python_type d).1 = [unknown_type_warning basetype]
      ∧ (to_python_type d).2 = (to_python_type (<["type" := VStr "int"]> d)).2
      ∧ (∀ e, (to_python_type d).2 = Raise e →
           ∃ dim, d !! "dim" = Some dim ∧ as_int dim = Raise e)
      ∧ ((∀ dim, d !! "dim" = Some dim → ∃ n, as_int dim = Return n) →
           ∃ t, (to_python_type d).2 = Return t).
Proof.
  split; [by vm_compute|]. split; [by vm_compute|]. split; [by vm_compute|].
  intros d basetype Hty Hun.
  pose proof (to_python_type_unknown d basetype Hty Hun) as Heq.
  split; [by apply base_type_unknown|].
  split; [by rewrite Heq|]. split; [by rewrite Heq|].
  split.
  - intros e. by apply to_python_type_raise with basetype.
  - intros Hdim. by apply to_python_type_return with basetype.
Qed.

Lemma to_python_type_spec_witness :
  (to_python_type enum_array_type).1 = [unknown_type_warning (VStr "enum")]
  ∧ ∃ t, (to_python_type enum_array_type).2 = Return t.
Proof.
  pose proof to_python_type_spec as (_ & _ & _ & Hspec).
  pose proof (Hspec enum_array_type (VStr "enum") eq_refl unknown_enum)
    as (_ & Hw & _ & _ & Hret).
  split; [exact Hw|]. apply Hret.
  intros dim Hdim. vm_compute in Hdim. injection Hdim as <-.
  by exists 1%Z.
Defined.

(** With a ["set"] that is true, the type under the lists is
    [Union[Set[int], range]] when the base type is unknown. *)
Lemma wrap_set_int (d : gmap string value) v :
  d !! "set" = Some v → truthy v = true → wrap_set d TInt = int_set.
Proof. intros Hset Htrue. unfold wrap_set. by rewrite Hset; simpl; rewrite Htrue. Qed.

(** C10, as stated, fails: [{"type": "enum", "set": true, "dim": 1}] has an
    unknown type and a true ["set"], and the function returns
    [List[Union[Set[int], range]]] for it, not the
    [Union[Set[int], range]] of [{"type": "int", "set": true}]. *)
Lemma unknown_set_not_always_int_set :
  ¬ ∀ (d : gmap string value) basetype,
      d !! "type" = Some basetype → unknown basetype →
      d !! "set" = Some (VBool true) →
      (to_python_type d).2 = (to_python_type int_set_type).2.
Proof.
  intros Hall.
  specialize (Hall enum_set_array_type (VStr "enum") eq_refl unknown_enum eq_refl).
  vm_compute in Hall. discriminate Hall.
Qed.

(** C10, amended: for every dict whose ["type"] is unknown and whose ["set"]
    is true, the function returns [Union[Set[int], range]] wrapped in [List]
    once per dimension, which is what it returns for the same dict with
    ["type": "int"]; when ["dim"] is absent or below 1 this is
    [Union[Set[int], range]] itself, the type of
    [{"type": "int", "set": true}]. *)
Theorem unknown_set_is_int_set (d : gmap string value) basetype v :
  d !! "type" = Some basetype → unknown basetype →
  d !! "set" = Some v → truthy v = true →
  (to_python_type d).2 = (to_python_type (<["type" := VStr "int"]> d)).2
  ∧ ∀ dim, as_int (default (VInt 0) (d !! "dim")) = Return dim →
      (to_python_type d).2 = Return (Nat.iter (Z.to_nat dim) TList int_set)
      ∧ ((dim < 1)%Z →
           (to_python_type d).2 = (to_python_type int_set_type).2).
Proof.
  intros Hty Hun Hset Htrue.
  split; [by rewrite (to_python_type_unknown d basetype Hty Hun)|].
  intros dim Hdim.
  assert ((to_python_type d).2
          = Return (Nat.iter (Z.to_nat dim) TList int_set)) as Hres.
  { unfold to_python_type.
    rewrite Hty, (base_type_unknown _ Hun), Hdim,
      (wrap_set_int d v Hset Htrue). simpl.
    by rewrite while_dim_enough. }
  split; [done|]. intros Hlt. rewrite Hres.
  replace (Z.to_nat dim) with 0 by lia. by vm_compute.
Qed.

Lemma unknown_set_is_int_set_witness :
  (to_python_type enum_set_type).2 = (to_python_type int_set_type).2
  ∧ (to_python_type enum_set_array_type).2 = Return (TList int_set).
Proof.
  split.
  - pose proof (unknown_set_is_int_set enum_set_type (VStr "enum")
                  (VBool true) eq_refl unknown_enum eq_refl eq_refl)
      as [_ Hdim].
    apply (Hdim 0%Z); [reflexivity | lia].
  - pose proof (unknown_set_is_int_set enum_set_array_type (VStr "enum")
                  (VBool true) eq_refl unknown_enum eq_refl eq_refl)
      as [_ Hdim].
    apply (Hdim 1%Z). reflexivity.
Defined.

End ToPythonTypeSpec.

(** ** The pattern of [check_version] *)

Module VersionPatternSpec.

Import VersionPattern.

Lemma strip_prefix_app p s : strip_prefix p (p ++ s) = Some s.
Proof.
  induction p as [|a p IH]; simpl; [done|].
  by rewrite (byte_dec_lb (eq_refl a)).
Qed.

Lemma strip_prefix_Some p s r : strip_prefix p s = Some r → s = p ++ r.
Proof.
  revert s. induction p as [|a p IH]; intros [|b s]; simpl; try congruence.
  destruct (Byte.eqb a b) eqn:Hab; [|done].
  apply byte_dec_bl in Hab as ->. intros Hs. by rewrite (IH _ Hs).
Qed.

Lemma expect_dot_Some s r : expect_dot s = Some r ↔ s = dot :: r.
Proof.
  destruct s as [|b s]; simpl; [split; congruence|].
  destruct (Byte.eqb b dot) eqn:Hb.
  - apply byte_dec_bl in Hb as ->. split; intros [= ->]; done.
  - apply eqb_false in Hb. split; [done|]. by intros [= -> ->].
Qed.

(** What [span_digits] splits off is the digits [s] starts with, all of
    them. *)
Lemma span_digits_spec s d r :
  span_digits s = (d, r) →
  s = d ++ r
  ∧ Forall (λ b, is_digit b = true) d
  ∧ (∀ b, head r = Some b → is_digit b = false).
Proof.
  revert d r. induction s as [|b s IH]; intros d r; simpl.
  - intros [= <- <-]. by repeat split.
  - destruct (is_digit b) eqn:Hb.
    + destruct (span_digits s) as [d' r'] eqn:Hs. intros [= <- <-].
      destruct (IH d' r' eq_refl) as (-> & Hd & Hr).
      repeat split; [by constructor | done].
    + intros [= <- <-]. repeat split; [constructor|].
      simpl. by intros ? [= <-].
Qed.

Lemma span_digits_app d r :
  Forall (λ b, is_digit b = true) d →
  (∀ b, head r = Some b → is_digit b = false) →
  span_digits (d ++ r) = (d, r).
Proof.
  intros Hd Hr. induction Hd as [|b d Hb _ IH]; simpl.
  - destruct r as [|b r]; simpl; [done|]. by rewrite (Hr b eq_refl).
  - by rewrite Hb, IH.
Qed.

(** After digits, [span_digits] takes at least these digits. *)
Lemma span_digits_prefix d r :
  Forall (λ b, is_digit b = true) d →
  ∃ d' r', span_digits (d ++ r) = (d ++ d', r').
Proof.
  intros Hd. induction Hd as [|b d Hb _ (d' & r' & IH)]; simpl.
  - destruct (span_digits r) as [d' r']. eauto.
  - rewrite Hb, IH. eauto.
Qed.

Lemma group_Some s g r :
  group s = Some (g, r) →
  s = g ++ r ∧ digits g ∧ (∀ b, head r = Some b → is_digit b = false).
Proof.
  unfold group. destruct (span_digits s) as [d r'] eqn:Hs.
  destruct (span_digits_spec _ _ _ Hs) as (-> & Hd & Hr).
  destruct d as [|b d]; [done|]. intros [= <- <-].
  by repeat split.
Qed.

Lemma group_dot g r :
  digits g → group (g ++ dot :: r) = Some (g, dot :: r).
Proof.
  intros [Hne Hd]. unfold group. rewrite span_digits_app; [|done|].
  - by destruct g.
  - simpl. by intros ? [= <-].
Qed.

Lemma group_prefix g r :
  digits g → ∃ g' r', group (g ++ r) = Some (g ++ g', r').
Proof.
  intros [Hne Hd]. unfold group.
  destruct (span_digits_prefix g r Hd) as (d' & r' & ->).
  destruct g; [done|]. simpl. eauto.
Qed.

(** A match at the start of [s] is a match of the pattern, whose last group
    takes every digit there is. *)
Lemma match_here_Some s g1 g2 g3 :
  match_here s = Some (g1, g2, g3) →
  ∃ m suf, s = m ++ suf ∧ matched m g1 g2 g3
    ∧ (∀ b, head suf = Some b → is_digit b = false).
Proof.
  unfold match_here. intros Hm.
  destruct (strip_prefix literal s) as [r0|] eqn:H0; [|done].
  apply strip_prefix_Some in H0 as ->. simpl in Hm.
  destruct (group r0) as [[h1 r1]|] eqn:H1; [|done].
  apply group_Some in H1 as (-> & Hg1 & _). simpl in Hm.
  destruct (expect_dot r1) as [r2|] eqn:H2; [|done].
  apply expect_dot_Some in H2 as ->. simpl in Hm.
  destruct (group r2) as [[h2 r3]|] eqn:H3; [|done].
  apply group_Some in H3 as (-> & Hg2 & _). simpl in Hm.
  destruct (expect_dot r3) as [r4|] eqn:H4; [|done].
  apply expect_dot_Some in H4 as ->. simpl in Hm.
  destruct (group r4) as [[h3 r5]|] eqn:H5; [|done].
  apply group_Some in H5 as (-> & Hg3 & Hsuf). simpl in Hm.
  injection Hm as <- <- <-.
  exists (literal ++ h1 ++ dot :: h2 ++ dot :: h3), r5.
  split; [|split; [by unfold matched | done]].
  repeat (rewrite <- app_assoc || rewrite <- app_comm_cons). done.
Qed.

(** Where the pattern matches, [match_here] finds the match, with the same
    first two groups and a third that starts with the third. *)
Lemma match_here_complete m suf g1 g2 g3 :
  matched m g1 g2 g3 →
  ∃ g3', match_here (m ++ suf) = Some (g1, g2, g3 ++ g3').
Proof.
  intros (-> & Hg1 & Hg2 & Hg3). unfold match_here.
  repeat (rewrite <- app_assoc || rewrite <- app_comm_cons).
  rewrite strip_prefix_app. simpl.
  rewrite (group_dot _ _ Hg1). simpl.
  rewrite (group_dot _ _ Hg2). simpl.
  destruct (group_prefix g3 suf Hg3) as (g' & r' & ->). simpl. eauto.
Qed.

(** [search] returns the match at the first position that has one. *)
Lemma search_Some s g :
  search s = Some g →
  ∃ pre rest, s = pre ++ rest ∧ match_here rest = Some g
    ∧ ∀ pre' rest', s = pre' ++ rest' → length pre' < length pre →
        match_here rest' = None.
Proof.
  induction s as [|b s IH]; simpl.
  - done.
  - destruct (match_here (b :: s)) eqn:Hm.
    + intros [= ->]. exists [], (b :: s). repeat split; [done|]. simpl. lia.
    + intros Hs. destruct (IH Hs) as (pre & rest & -> & Hrest & Hfirst).
      exists (b :: pre), rest. repeat split; [done|].
      intros [|b' pre'] rest' Heq Hlen; simpl in *.
      * by subst rest'.
      * injection Heq as <- Heq. apply (Hfirst pre'); [done | lia].
Qed.




(** The groups [search] returns are those of the first match in [s]. *)
Lemma search_first s g1 g2 g3 :
  search s = Some (g1, g2, g3) →
  ∃ pre m suf, s = pre ++ m ++ suf ∧ matched m g1 g2 g3
    ∧ (∀ b, head suf = Some b → is_digit b = false)
    ∧ ∀ pre' m' suf' h1 h2 h3,
        s = pre' ++ m' ++ suf' → matched m' h1 h2 h3 →
        length pre ≤ length pre'.
Proof.
  intros Hs. destruct (search_Some _ _ Hs) as (pre & rest & -> & Hm & Hfirst).
  destruct (match_here_Some _ _ _ _ Hm) as (m & suf & -> & Hmatch & Hsuf).
  exists pre, m, suf. do 3 (split; [done|]).
  intros pre' m' suf' h1 h2 h3 Heq Hm'.
  destruct (decide (length pre' < length pre)) as [Hlt|]; [|lia].
  specialize (Hfirst pre' (m' ++ suf') Heq Hlt).
  destruct (match_here_complete m' suf' h1 h2 h3 Hm') as [? Hhere].
  congruence.
Qed.

(** The dots of the pattern are escaped and stand for themselves: the text
    [version 1a2b3], which the pattern with unescaped dots would match, has
    no match. *)
Remark dots_are_literal :
  let s := list_byte_of_string "version 1a2b3" in
  search s = None
  ∧ ∃ g1 g2 g3, matched_unescaped s g1 g2 g3.
Proof.
  split; [reflexivity|].
  exists ["1"%byte], ["2"%byte], ["3"%byte], "a"%byte, "b"%byte.
  split; [reflexivity|].
  unfold any_byte, digits. repeat split; try discriminate;
    by repeat constructor.
Qed.

End VersionPatternSpec.

(** ** [CLIDriver] *)

Module CLISpec.

Import VersionPattern CLI.

Section Facts.
Context `{Host}.

Implicit Types (self : CLIDriver) (args : list arg) (solver : option Solver)
  (timeout : option timedelta) (cmd : list string).

(** Split on what the operating system does with the child. *)
Ltac child_cases :=
  unfold subprocess_run, create_subprocess_exec, expires;
  repeat match goal with
    | |- context [child ?c] => destruct (child c) eqn:?
    | |- context [exec ?c] => destruct (exec c) eqn:?
    | |- context [float_lt ?a ?b] => destruct (float_lt a b) eqn:?
    | |- context [decide ?P] => destruct (decide P)
    | |- context [match ?t with None => _ | Some _ => _ end] =>
        destruct t eqn:?
    end; simpl.

Lemma run_unfold self args solver timeout :
  run self args solver timeout
  = bind
      match solver with
      | None =>
          logged_run (command_line self args None) (total_seconds <$> timeout)
      | Some s =>
          with_configuration s (λ _,
            logged_run (command_line self args (Some s))
              (total_seconds <$> timeout))
      end checked.
Proof. by destruct solver. Qed.

Lemma trace_logged_run cmd t :
  trace (logged_run cmd t)
  = Debug (run_message cmd t) :: trace (subprocess_run cmd t).
Proof. unfold logged_run, bind, emit. by destruct (subprocess_run cmd t) as [? []]. Qed.

Lemma result_logged_run cmd t :
  result (logged_run cmd t) = result (subprocess_run cmd t).
Proof. unfold logged_run, bind, emit. by destruct (subprocess_run cmd t) as [? []]. Qed.

(** Looking at the exit status causes no event. *)
Lemma trace_bind_checked (m : M CompletedProcess) :
  trace (bind m checked) = trace m.
Proof.
  destruct m as [t [output| |]]; simpl; [|done..].
  unfold checked. destruct (decide _); simpl; by rewrite app_nil_r.
Qed.

Lemma result_bind_checked (m : M CompletedProcess) :
  result (bind m checked)
  = match result m with
    | Return output =>
        if decide (returncode output ≠ 0%Z) then
          Raise (Parsed (parse_error (stderr output)))
        else Return output
    | Raise x => Raise x
    | Blocked => Blocked
    end.
Proof.
  destruct m as [t [output| |]]; simpl; [|done..].
  unfold checked. by destruct (decide _).
Qed.

(** The scope of the token changes no result. *)
Lemma result_with_configuration {A} (s : Solver) (body : string → M A) :
  result (with_configuration s body) = result (body (configuration s)).
Proof. unfold with_configuration. by destruct (body _). Qed.

Lemma trace_with_configuration {A} (s : Solver) (body : string → M A) :
  trace (with_configuration s body)
  = Acquire (configuration s) :: trace (body (configuration s))
      ++ match result (body (configuration s)) with
         | Blocked => []
         | _ => [Release (configuration s)]
         end.
Proof. unfold with_configuration. by destruct (body _). Qed.

(** The result of [run] is that of [subprocess.run] on the command line,
    after the look at the exit status. *)
Lemma result_run self args solver timeout :
  result (run self args solver timeout)
  = match result (subprocess_run (command_line self args solver)
                    (total_seconds <$> timeout)) with
    | Return output =>
        if decide (returncode output ≠ 0%Z) then
          Raise (Parsed (parse_error (stderr output)))
        else Return output
    | Raise x => Raise x
    | Blocked => Blocked
    end.
Proof.
  rewrite run_unfold, result_bind_checked.
  destruct solver as [s|]; [rewrite result_with_configuration|];
    by rewrite result_logged_run.
Qed.

Lemma trace_run_None self args timeout :
  let cmd := command_line self args None in
  let t := total_seconds <$> timeout in
  trace (run self args None timeout)
  = Debug (run_message cmd t) :: trace (subprocess_run cmd t).
Proof.
  intros cmd t. by rewrite run_unfold, trace_bind_checked, trace_logged_run.
Qed.

Lemma trace_run_Some self args (s : Solver) timeout :
  let cmd := command_line self args (Some s) in
  let t := total_seconds <$> timeout in
  trace (run self args (Some s) timeout)
  = Acquire (configuration s) :: Debug (run_message cmd t)
      :: trace (subprocess_run cmd t)
      ++ match result (subprocess_run cmd t) with
         | Blocked => []
         | _ => [Release (configuration s)]
         end.
Proof.
  intros cmd t.
  by rewrite run_unfold, trace_bind_checked, trace_with_configuration,
    trace_logged_run, result_logged_run.
Qed.

(** [subprocess.run] is called once, with the command and the timeout it is
    given. *)
Lemma trace_subprocess_run cmd (t : option float) :
  ∃ after, trace (subprocess_run cmd t) = Run cmd Inherit PIPE PIPE t :: after
    ∧ (after = [] ∨ after = [Kill] ∨ ∃ rc, after = [Exit rc]).
Proof. child_cases; eauto 10. Qed.

Lemma commands_app (t1 t2 : list event) :
  commands (t1 ++ t2) = commands t1 ++ commands t2.
Proof. unfold commands. apply omap_app. Qed.

Lemma commands_subprocess_run cmd (t : option float) :
  commands (trace (subprocess_run cmd t)) = [cmd].
Proof. by child_cases. Qed.

(** [run] hands the command line to the operating system, once. *)
Lemma commands_run self args solver timeout :
  commands (trace (run self args solver timeout))
  = [command_line self args solver].
Proof.
  destruct solver as [s|].
  - rewrite trace_run_Some. simpl.
    change (commands (Acquire ?c :: Debug ?m :: ?t)) with (commands t).
    rewrite commands_app, commands_subprocess_run.
    by destruct (result _).
  - rewrite trace_run_None. simpl.
    change (commands (Debug ?m :: ?t)) with (commands t).
    by rewrite commands_subprocess_run.
Qed.

(** C1: whatever the arguments, the command that [run] and that
    [create_process] hand to the operating system is the executable path,
    then ["--allow-multiple-assignments"], then the [str] of each argument in
    order when there is no solver; with a solver, ["--solver"] and the
    configuration token stand between the executable path and
    ["--allow-multiple-assignments"], in this order. Each call hands over
    exactly one command. *)
Theorem command_assembled self args :
  let executable := str_path (_executable self) in
  (∀ timeout,
     commands (trace (run self args None timeout))
     = [executable :: "--allow-multiple-assignments" :: map str args])
  ∧ commands (trace (create_process self args None))
    = [executable :: "--allow-multiple-assignments" :: map str args]
  ∧ ∀ s : Solver,
      (∀ timeout,
         commands (trace (run self args (Some s) timeout))
         = [executable :: "--solver" :: configuration s
              :: "--allow-multiple-assignments" :: map str args])
      ∧ commands (trace (create_process self args (Some s)))
        = [executable :: "--solver" :: configuration s
             :: "--allow-multiple-assignments" :: map str args].
Proof.
  intros executable. split; [|split; [|intros s; split]].
  - intros timeout. by rewrite commands_run.
  - unfold create_process. by child_cases.
  - intros timeout. by rewrite commands_run.
  - unfold create_process, with_configuration. by child_cases.
Qed.

(** C4: when the child of a synchronous run exits with a status that is not
    zero, [run] raises what [parse_error] makes of the bytes the child wrote
    to its standard error, and returns no result; when the child exits with
    status zero, [run] returns the [CompletedProcess] that holds all the
    child wrote to its standard output and standard error, both of which
    [subprocess.run] was told to capture. *)
Theorem run_exit_status self args solver timeout elapsed rc out err :
  let cmd := command_line self args solver in
  let t := total_seconds <$> timeout in
  child cmd = Exits elapsed rc out err →
  expires elapsed t = false →
  (rc ≠ 0%Z →
     result (run self args solver timeout) = Raise (Parsed (parse_error err))
     ∧ ¬ returns (result (run self args solver timeout)))
  ∧ (rc = 0%Z →
       result (run self args solver timeout)
       = Return {| args := cmd; returncode := 0; stdout := out; stderr := err |})
  ∧ Run cmd Inherit PIPE PIPE t ∈ trace (run self args solver timeout).
Proof.
  intros cmd t Hchild Hexp.
  assert (subprocess_run cmd t
          = ([Run cmd Inherit PIPE PIPE t; Exit rc],
             Return {| args := cmd; returncode := rc;
                       stdout := out; stderr := err |})) as Hrun.
  { unfold subprocess_run. by rewrite Hchild, Hexp. }
  pose proof (result_run self args solver timeout) as Hres.
  fold cmd t in Hres. rewrite Hrun in Hres. simpl in Hres.
  split; [|split].
  - intros Hrc. rewrite Hres. rewrite decide_True by done.
    split; [done|]. by intros [? ?].
  - intros ->. rewrite Hres. by rewrite decide_False by (intros ?; done).
  - destruct solver as [s|].
    + rewrite trace_run_Some. fold cmd t. rewrite Hrun. simpl.
      set_solver.
    + rewrite trace_run_None. fold cmd t. rewrite Hrun. simpl.
      set_solver.
Qed.

Lemma timeouts_app (t1 t2 : list event) :
  timeouts (t1 ++ t2) = timeouts t1 ++ timeouts t2.
Proof. unfold timeouts. apply omap_app. Qed.

Lemma timeouts_subprocess_run cmd (t : option float) :
  timeouts (trace (subprocess_run cmd t)) = [t].
Proof. by child_cases. Qed.

Lemma timeouts_run self args solver timeout :
  timeouts (trace (run self args solver timeout)) = [total_seconds <$> timeout].
Proof.
  destruct solver as [s|].
  - rewrite trace_run_Some. simpl.
    change (timeouts (Acquire ?c :: Debug ?m :: ?t)) with (timeouts t).
    rewrite timeouts_app, timeouts_subprocess_run. by destruct (result _).
  - rewrite trace_run_None. simpl.
    change (timeouts (Debug ?m :: ?t)) with (timeouts t).
    apply timeouts_subprocess_run.
Qed.

(** C7: when a timeout is given and the child of a synchronous run outlives
    it, [run] raises the [TimeoutExpired] that [subprocess.run] raises, as it
    is, and returns no result. When no timeout is given, [subprocess.run] is
    called with [timeout=None] and [run] waits for the child however long it
    takes: it never raises [TimeoutExpired], it ends as the exit status of
    the child says once the child exits, and it does not come back while
    the child does not exit. *)
Theorem run_timeout self args solver :
  let cmd := command_line self args solver in
  (∀ td : timedelta,
     let t := Some (total_seconds td) in
     timeouts (trace (run self args solver (Some td))) = [t]
     ∧ (overruns (child cmd) (total_seconds td) = true →
          result (run self args solver (Some td))
          = Raise (TimeoutExpired cmd t)
          ∧ result (run self args solver (Some td))
            = result (subprocess_run cmd t)
          ∧ ¬ returns (result (run self args solver (Some td)))))
  ∧ timeouts (trace (run self args solver None)) = [None]
  ∧ (∀ c t, result (run self args solver None) ≠ Raise (TimeoutExpired c t))
  ∧ (∀ elapsed rc out err,
       child cmd = Exits elapsed rc out err →
       result (run self args solver None)
       = if decide (rc ≠ 0%Z) then Raise (Parsed (parse_error err))
         else Return {| args := cmd; returncode := rc;
                        stdout := out; stderr := err |})
  ∧ (child cmd = Lingers → result (run self args solver None) = Blocked).
Proof.
  intros cmd. split; [|split; [|split; [|split]]].
  - intros td t. split; [apply timeouts_run|]. intros Hover.
    assert (result (subprocess_run cmd t) = Raise (TimeoutExpired cmd t))
      as Hrun.
    { unfold subprocess_run, overruns in *.
      destruct (child cmd); simpl in *; [by rewrite Hover|done..]. }
    pose proof (result_run self args solver (Some td)) as Hres.
    simpl in Hres. fold cmd t in Hres. rewrite Hrun in Hres.
    rewrite Hres, Hrun. repeat split. by intros [? ?].
  - apply timeouts_run.
  - intros c t. rewrite result_run. simpl. fold cmd.
    unfold subprocess_run. destruct (child cmd); simpl; [|done..].
    by destruct (decide _).
  - intros elapsed rc out err Hchild. rewrite result_run. simpl. fold cmd.
    unfold subprocess_run. by rewrite Hchild.
  - intros Hchild. rewrite result_run. simpl. fold cmd.
    unfold subprocess_run. by rewrite Hchild.
Qed.

(** In a scope that is left, the release of the token is the last event. *)
Lemma last_release (t : list event) conf i j rc c :
  (∀ k c', t !! k ≠ Some (Release c')) →
  (t ++ [Release conf]) !! i = Some (Exit rc) →
  (t ++ [Release conf]) !! j = Some (Release c) →
  i < j.
Proof.
  intros Hno Hi Hj.
  destruct (decide (j < length t)) as [Hlt|Hge].
  - rewrite lookup_app_l in Hj by done. by destruct (Hno j c).
  - destruct (decide (i < length t)) as [|Hi']; [lia|].
    rewrite lookup_app_r in Hi by lia.
    by destruct (i - length t) as [|[|]].
Qed.

Lemma no_release_subprocess_run cmd (t : option float) k c :
  (Debug (run_message cmd t) :: trace (subprocess_run cmd t)) !! k
  ≠ Some (Release c).
Proof. child_cases; by repeat (destruct k as [|k]; simpl; try done). Qed.

(** C5, amended: when a solver is given, [run] and [create_process] acquire
    the token of the solver once, before the command is built, and release
    it once, as the last thing they do, on every path on which the call of
    the operating system comes back: with a child that exited (with any
    status), that was killed at the timeout, or that could not be started.
    In [run] the release comes right after [subprocess.run], so after the
    exit of the child; in [create_process] it comes right after the child
    is started. *)
Theorem configuration_scope self args (s : Solver) :
  let conf := configuration s in
  let cmd := command_line self args (Some s) in
  (∀ timeout,
     let t := total_seconds <$> timeout in
     let tr := trace (run self args (Some s) timeout) in
     (result (run self args (Some s) timeout) ≠ Blocked →
        tr = Acquire conf :: Debug (run_message cmd t)
               :: trace (subprocess_run cmd t) ++ [Release conf]
        ∧ released tr = [conf])
     ∧ acquired tr = [conf]
     ∧ (∀ i j rc c,
          tr !! i = Some (Exit rc) → tr !! j = Some (Release c) → i < j))
  ∧ ∃ msg,
      trace (create_process self args (Some s))
      = [Acquire conf; Debug msg; Spawn cmd Inherit PIPE PIPE; Release conf].
Proof.
  intros conf cmd. split.
  - intros timeout t tr. subst tr. rewrite trace_run_Some. fold conf cmd t.
    split; [|split].
    + rewrite result_run. fold cmd t. intros Hback. split.
      * by destruct (result (subprocess_run cmd t)) as [output|x|].
      * revert Hback. by child_cases.
    + by child_cases.
    + intros i j rc c.
      destruct (result (subprocess_run cmd t)) eqn:Hres.
      1,2: destruct i as [|i], j as [|j]; simpl; try done;
        intros Hi Hj; apply -> Nat.succ_lt_mono;
        rewrite app_comm_cons in Hi, Hj;
        eapply last_release; [|exact Hi|exact Hj];
        apply no_release_subprocess_run.
      rewrite app_nil_r. intros _ Hj. exfalso.
      destruct j as [|j]; [done|]. simpl in Hj.
      by eapply no_release_subprocess_run.
  - unfold create_process, with_configuration. child_cases; eauto.
Qed.

(** C8: constructing the driver succeeds exactly when the path exists at
    that moment. When it does not exist the [assert] fails with
    [AssertionError]; when it exists the driver with this path is returned,
    and nothing else is looked at: no process is started and no event is
    caused. *)
Theorem init_spec (executable : Path) :
  (returns (result (__init__ executable)) ↔ path_exists executable = true)
  ∧ (path_exists executable = true →
       __init__ executable = ([], Return {| _executable := executable |}))
  ∧ (path_exists executable = false →
       __init__ executable = ([], Raise (Builtin AssertionError))).
Proof.
  unfold __init__. simpl. destruct (path_exists executable); simpl.
  - repeat split; [by eexists|done..].
  - repeat split; [by intros [? ?]|done..].
Qed.

(** The command of a version query. *)
Lemma command_line_version self :
  command_line self [Str "--version"] None
  = [str_path (_executable self); "--allow-multiple-assignments"; "--version"].
Proof. done. Qed.

(** A version query that the child answers with exit status zero. *)
Lemma run_version self elapsed out err :
  let cmd :=
    [str_path (_executable self); "--allow-multiple-assignments"; "--version"]
  in
  child cmd = Exits elapsed 0 out err →
  run self [Str "--version"] None None
  = ([Debug (run_message cmd None); Run cmd Inherit PIPE PIPE None; Exit 0],
     Return {| args := cmd; returncode := 0; stdout := out; stderr := err |}).
Proof.
  intros cmd Hchild. unfold run, subprocess_run. simpl. fold cmd.
  by rewrite Hchild.
Qed.

Lemma trace_minizinc_version self :
  trace (minizinc_version self) = trace (run self [Str "--version"] None None).
Proof.
  unfold minizinc_version.
  destruct (run self _ None None) as [t [output| |]]; simpl; [|done..].
  destruct (decode _); simpl; by rewrite app_nil_r.
Qed.

(** C9, amended: the version property calls [run] with the one argument
    ["--version"], without solver and without timeout, so that the
    executable is started once, synchronously, with the two arguments
    ["--allow-multiple-assignments"] and ["--version"]; when the child exits
    with status zero the property returns what the child wrote to its
    standard output, decoded. *)
Theorem minizinc_version_spec self :
  let cmd :=
    [str_path (_executable self); "--allow-multiple-assignments"; "--version"]
  in
  minizinc_version self
  = bind (run self [Str "--version"] None None) (λ output,
      match decode (stdout output) with
      | Some s => ret s
      | None => raise (Builtin UnicodeDecodeError)
      end)
  ∧ commands (trace (minizinc_version self)) = [cmd]
  ∧ timeouts (trace (minizinc_version self)) = [None]
  ∧ acquired (trace (minizinc_version self)) = []
  ∧ ∀ elapsed out err s,
      child cmd = Exits elapsed 0 out err → decode out = Some s →
      result (minizinc_version self) = Return s.
Proof.
  intros cmd. split; [done|]. rewrite trace_minizinc_version.
  split; [|split; [|split]].
  - by rewrite commands_run.
  - apply timeouts_run.
  - rewrite trace_run_None. by child_cases.
  - intros elapsed out err s Hchild Hdec. unfold minizinc_version.
    rewrite (run_version self elapsed out err Hchild). simpl.
    by rewrite Hdec.
Qed.

Lemma append_assoc (a b c : string) : (a +:+ b) +:+ c = a +:+ b +:+ c.
Proof.
  induction a as [|x a IH]; [done|].
  change (String x ((a +:+ b) +:+ c) = String x (a +:+ b +:+ c)).
  by rewrite IH.
Qed.

(** The message of [check_version] names the executable and both
    versions. *)
Lemma version_message_contains self found :
  contains (str_path (_executable self)) (version_message self found)
  ∧ contains (repr_tuple found) (version_message self found)
  ∧ contains (repr_tuple required_version) (version_message self found).
Proof.
  unfold contains, version_message.
  set (p := str_path (_executable self)).
  set (f := repr_tuple found). set (r := repr_tuple required_version).
  split; [|split].
  - by exists "The MiniZinc driver found at '",
      ("' has version " +:+ f +:+ ". The minimal required version is "
         +:+ r +:+ ".").
  - exists ("The MiniZinc driver found at '" +:+ p +:+ "' has version "),
      (". The minimal required version is " +:+ r +:+ ".").
    by rewrite !append_assoc.
  - exists ("The MiniZinc driver found at '" +:+ p +:+ "' has version "
              +:+ f +:+ ". The minimal required version is "), ".".
    by rewrite !append_assoc.
Qed.

(** [<] on triples is the lexicographic order. *)
Lemma tuple_lt_triple (a b c x y z : Z) :
  tuple_lt [a; b; c] [x; y; z] = true
  ↔ (a < x ∨ (a = x ∧ (b < y ∨ (b = y ∧ c < z))))%Z.
Proof.
  unfold tuple_lt.
  destruct (Z.eqb_spec a x), (Z.eqb_spec b y), (Z.eqb_spec c z);
    rewrite ?Z.ltb_lt; try lia; (split; [discriminate | lia]).
Qed.

(** [check_version] after a version query that the child answers with exit
    status zero. *)
Lemma result_check_version self elapsed out err :
  child [str_path (_executable self); "--allow-multiple-assignments";
         "--version"] = Exits elapsed 0 out err →
  result (check_version self)
  = match search out with
    | None => Raise (Builtin no_groups)
    | Some (g1, g2, g3) =>
        let found := map int_of_digits [g1; g2; g3] in
        if tuple_lt found required_version then
          Raise (ConfigurationError (version_message self found))
        else Return tt
    end.
Proof.
  intros Hchild. unfold check_version.
  rewrite (run_version self elapsed out err Hchild).
  unfold bind. cbn [stdout].
  destruct (search out) as [[[g1 g2] g3]|]; [|done].
  by destruct (tuple_lt _ required_version).
Qed.

(** C2: [check_version] takes from the standard output of the version query
    the three groups of the first match of the pattern, as three integers,
    and raises [ConfigurationError] exactly when this tuple is smaller than
    [required_version] in the lexicographic order of tuples; otherwise it
    returns. The message of the error contains the tuple found, the tuple
    required and the path of the executable. *)
Theorem check_version_spec self elapsed out err g1 g2 g3 :
  let found := [int_of_digits g1; int_of_digits g2; int_of_digits g3] in
  child [str_path (_executable self); "--allow-multiple-assignments";
         "--version"] = Exits elapsed 0 out err →
  search out = Some (g1, g2, g3) →
  (∃ pre m suf, out = pre ++ m ++ suf ∧ matched m g1 g2 g3
     ∧ ∀ pre' m' suf' h1 h2 h3,
         out = pre' ++ m' ++ suf' → matched m' h1 h2 h3 →
         length pre ≤ length pre')
  ∧ ((∃ msg, result (check_version self) = Raise (ConfigurationError msg))
     ↔ tuple_lt found required_version = true)
  ∧ (tuple_lt found required_version = true →
       result (check_version self)
       = Raise (ConfigurationError (version_message self found))
       ∧ contains (repr_tuple found) (version_message self found)
       ∧ contains (repr_tuple required_version) (version_message self found)
       ∧ contains (str_path (_executable self)) (version_message self found))
  ∧ (tuple_lt found required_version = false →
       result (check_version self) = Return tt)
  ∧ (∀ x y z, required_version = [x; y; z] →
       tuple_lt found required_version = true
       ↔ (int_of_digits g1 < x
          ∨ (int_of_digits g1 = x
             ∧ (int_of_digits g2 < y
                ∨ (int_of_digits g2 = y ∧ int_of_digits g3 < z))))%Z).
Proof.
  intros found Hchild Hsearch.
  pose proof (result_check_version self elapsed out err Hchild) as Hres.
  rewrite Hsearch in Hres. simpl in Hres. fold found in Hres.
  split; [|split; [|split; [|split]]].
  - destruct (VersionPatternSpec.search_first _ _ _ _ Hsearch)
      as (pre & m & suf & ? & ? & _ & ?). by exists pre, m, suf.
  - rewrite Hres. destruct (tuple_lt found required_version).
    + split; [done|]. by eexists.
    + split; [by intros [? ?]|done].
  - intros Hlt. rewrite Hres, Hlt.
    destruct (version_message_contains self found) as (? & ? & ?). done.
  - intros Hge. by rewrite Hres, Hge.
  - intros x y z ->. apply tuple_lt_triple.
Qed.


End Facts.

(** *** On the host [Demo.demo] *)

Import Demo.

Lemma run_exit_status_witness :
  result (run minizinc [Str "broken.mzn"] None None)
  = Raise (@Parsed demo syntax_error)
  ∧ result (run minizinc [Str "model.mzn"] (Some "gecode") (Some 10%Z))
    = Return (Build_CompletedProcess
                ["/usr/bin/minizinc"; "--solver"; "gecode.msc";
                 "--allow-multiple-assignments"; "model.mzn"]
                0 solution []).
Proof.
  split.
  - pose proof (run_exit_status (H := demo) minizinc [Str "broken.mzn"]
                  None None 1%Z 1%Z [] syntax_error eq_refl eq_refl)
      as (Hfail & _ & _).
    apply Hfail. lia.
  - pose proof (run_exit_status (H := demo) minizinc [Str "model.mzn"]
                  (Some "gecode") (Some 10%Z) 1%Z 0%Z solution []
                  eq_refl eq_refl) as (_ & Hok & _).
    apply Hok. reflexivity.
Defined.

Lemma run_timeout_witness :
  result (run minizinc [Str "slow.mzn"] None (Some 10%Z))
  = Raise (@TimeoutExpired demo
             ["/usr/bin/minizinc"; "--allow-multiple-assignments"; "slow.mzn"]
             (Some 10%Z))
  ∧ returns (result (run minizinc [Str "slow.mzn"] None None))
  ∧ result (run minizinc [Str "loop.mzn"] None None) = Blocked.
Proof.
  pose proof (run_timeout (H := demo) minizinc [Str "slow.mzn"] None)
    as (Hsome & _ & _ & Hexit & _).
  pose proof (run_timeout (H := demo) minizinc [Str "loop.mzn"] None)
    as (_ & _ & _ & _ & Hlinger).
  split; [|split].
  - destruct (Hsome 10%Z) as [_ Hover]. apply Hover. reflexivity.
  - rewrite (Hexit 60%Z 0%Z solution [] eq_refl). by eexists.
  - apply Hlinger. reflexivity.
Defined.

(** C5, as stated, fails: with the solver [gecode] and a model that is
    solved at once, [run] releases the token after [subprocess.run] has
    seen the child exit, not before. *)
Lemma release_follows_exit :
  ¬ released_before_exit
      (trace (run minizinc [Str "model.mzn"] (Some "gecode") None)).
Proof.
  intros Hbefore.
  specialize (Hbefore 4 3 "gecode.msc" 0%Z eq_refl eq_refl). lia.
Qed.

Lemma configuration_scope_witness :
  trace (run minizinc [Str "broken.mzn"] (Some "gecode") None)
  = [@Acquire demo "gecode.msc";
     Debug (@run_message demo
              ["/usr/bin/minizinc"; "--solver"; "gecode.msc";
               "--allow-multiple-assignments"; "broken.mzn"] None);
     Run ["/usr/bin/minizinc"; "--solver"; "gecode.msc";
          "--allow-multiple-assignments"; "broken.mzn"] Inherit PIPE PIPE None;
     Exit 1;
     Release "gecode.msc"].
Proof.
  pose proof (configuration_scope (H := demo) minizinc
                [Str "broken.mzn"] "gecode") as [Hrun _].
  destruct (Hrun None) as (Htrace & _ & _).
  etrans; [apply Htrace; discriminate | reflexivity].
Defined.

Lemma init_spec_witness :
  @__init__ demo "/usr/bin/minizinc" = ([], Return minizinc)
  ∧ @__init__ demo "/nowhere/minizinc"
    = ([], Raise (@Builtin demo AssertionError)).
Proof.
  split.
  - pose proof (init_spec (H := demo) "/usr/bin/minizinc")
      as (_ & Hok & _).
    apply Hok. reflexivity.
  - pose proof (init_spec (H := demo) "/nowhere/minizinc")
      as (_ & _ & Hfail).
    apply Hfail. reflexivity.
Defined.

(** C9, as stated, fails: the version property does not start the
    executable with ["--version"] for its one argument; [run] puts
    ["--allow-multiple-assignments"] before it. *)
Lemma version_query_has_two_arguments :
  commands (trace (minizinc_version minizinc))
  ≠ [["/usr/bin/minizinc"; "--version"]].
Proof. discriminate. Qed.

Lemma minizinc_version_spec_witness :
  result (minizinc_version minizinc)
  = Return "MiniZinc to FlatZinc converter, version 2.6.1, build 7".
Proof.
  pose proof (minizinc_version_spec (H := demo) minizinc)
    as (_ & _ & _ & _ & Hret).
  apply (Hret 1%Z new_banner []); reflexivity.
Defined.

Lemma check_version_spec_witness :
  @required_version demo = [2; 6; 0]%Z
  ∧ result (check_version old_minizinc)
    = Raise (@ConfigurationError demo
        "The MiniZinc driver found at '/opt/old/minizinc' has version (2, 5, 0). The minimal required version is (2, 6, 0).")
  ∧ result (check_version minizinc) = Return tt.
Proof.
  split; [reflexivity|]. split.
  - pose proof (check_version_spec (H := demo) old_minizinc 1%Z
                  old_banner [] _ _ _ eq_refl eq_refl)
      as (_ & _ & Hlt & _).
    destruct Hlt as [Hres _]; [reflexivity|]. exact Hres.
  - pose proof (check_version_spec (H := demo) minizinc 1%Z
                  new_banner [] _ _ _ eq_refl eq_refl)
      as (_ & _ & _ & Hge & _).
    apply Hge. reflexivity.
Defined.



End CLISpec.

(** ** More of [to_python_type] *)

Module ToPythonTypeMore.

Import ToPythonType ToPythonTypeShape.

(** The function in one piece, for a dict that has a ["type"]. *)
Lemma to_python_type_eq (d : gmap string value) v :
  d !! "type" = Some v →
  to_python_type d
  = ((base_type v).1,
     map_outcome
       (λ dim, Nat.iter (Z.to_nat dim) TList (wrap_set d (base_type v).2))
       (as_int (default (VInt 0) (d !! "dim")))).
Proof.
  intros Hty. unfold to_python_type. rewrite Hty.
  destruct (base_type v) as [ws t]. simpl.
  destruct (as_int _) as [dim| |]; simpl; [|done..].
  by rewrite ToPythonTypeSpec.while_dim_enough.
Qed.

Lemma as_int_numeric v :
  (numeric v = true → ∃ z, as_int v = Return z)
  ∧ (numeric v = false → ∃ msg, as_int v = Raise (TypeError msg)).
Proof. destruct v; simpl; split; intros; try done; eauto. Qed.

Lemma known_cases v :
  known v = true ↔ v = VStr "bool" ∨ v = VStr "float" ∨ v = VStr "int".
Proof.
  unfold known. rewrite !orb_true_iff.
  destruct v as [| | |s]; simpl.
  1-3: split; [intros [[|]|]|intros [|[|]]]; discriminate.
  rewrite !String.eqb_eq.
  split; [intros [[->| ->]| ->]|intros [[= ->]|[[= ->]|[= ->]]]]; eauto.
Qed.

Lemma known_unknown v : known v = false ↔ unknown v.
Proof.
  unfold unknown. split.
  - intros Hk. repeat split; intros ->; done.
  - intros (Hb & Hf & Hi). apply not_true_is_false. rewrite known_cases.
    by intros [|[|]].
Qed.

Lemma base_type_cases v :
  base_type v = ([], TBool) ∧ v = VStr "bool"
  ∨ base_type v = ([], TFloat) ∧ v = VStr "float"
  ∨ base_type v = ([], TInt) ∧ v = VStr "int"
  ∨ base_type v = ([unknown_type_warning v], TInt) ∧ known v = false.
Proof.
  destruct (known v) eqn:Hk.
  - apply known_cases in Hk as [->|[->| ->]]; eauto 6.
  - right. right. right. split; [|done].
    by apply ToPythonTypeSpec.base_type_unknown, known_unknown.
Qed.

(** X1: the call raises [KeyError] exactly when ["type"] is missing. With a
    ["type"], it returns a type when ["dim"] is absent, an [int] or a
    [bool], and it raises [TypeError] when ["dim"] is [None] or a string. *)
Theorem to_python_type_outcome (d : gmap string value) :
  ((to_python_type d).2 = Raise (KeyError "type") ↔ d !! "type" = None)
  ∧ (is_Some (d !! "type") →
       d !! "dim" = None
       ∨ (∃ z, d !! "dim" = Some (VInt z))
       ∨ (∃ b, d !! "dim" = Some (VBool b)) →
       ∃ t, (to_python_type d).2 = Return t)
  ∧ (is_Some (d !! "type") →
       d !! "dim" = Some VNone ∨ (∃ s, d !! "dim" = Some (VStr s)) →
       ∃ msg, (to_python_type d).2 = Raise (TypeError msg)).
Proof.
  split; [|split].
  - destruct (d !! "type") as [ty|] eqn:Hty.
    + rewrite (to_python_type_eq d ty Hty). simpl.
      split; [|done].
      by destruct (default (VInt 0) (d !! "dim")) as [|b|z|s].
    + unfold to_python_type. by rewrite Hty.
  - intros [ty Hty] Hdim. rewrite (to_python_type_eq d ty Hty). simpl.
    destruct Hdim as [->|[[z ->]|[b ->]]]; simpl; eauto.
  - intros [ty Hty] Hdim. rewrite (to_python_type_eq d ty Hty). simpl.
    destruct Hdim as [->|[s ->]]; simpl; eauto.
Qed.

Lemma to_python_type_outcome_witness :
  (∃ t, (to_python_type bool_matrix_type).2 = Return t)
  ∧ (∃ msg, (to_python_type bad_dim_type).2 = Raise (TypeError msg)).
Proof.
  split.
  - destruct (to_python_type_outcome bool_matrix_type) as (_ & Hret & _).
    apply Hret; [by eexists|]. right. left. by exists 2%Z.
  - destruct (to_python_type_outcome bad_dim_type) as (_ & _ & Hraise).
    apply Hraise; [by eexists|]. right. by exists "two".
Defined.

(** X2: a warning is emitted exactly when ["type"] is there and is none of
    the three known names; then it is the one [FutureWarning] that names
    the type, and it is emitted also when the call goes on to raise on
    ["dim"]. *)
Theorem to_python_type_warnings (d : gmap string value) :
  ((to_python_type d).1 = [] ↔ ∀ v, d !! "type" = Some v → known v = true)
  ∧ (∀ v, d !! "type" = Some v → known v = false →
       (to_python_type d).1 = [unknown_type_warning v]
       ∧ w_category (unknown_type_warning v) = FutureWarning
       ∧ contains (format v) (w_message (unknown_type_warning v))).
Proof.
  split.
  - destruct (d !! "type") as [ty|] eqn:Hty.
    + rewrite (to_python_type_eq d ty Hty). simpl.
      destruct (base_type_cases ty) as [[-> ->]|[[-> ->]|[[-> ->]|[-> Hk]]]];
        simpl.
      1-3: split; [by intros _ v [= <-]|done].
      split; [done|]. intros Hall. by rewrite (Hall ty eq_refl) in Hk.
    + unfold to_python_type. rewrite Hty. simpl. split; [|done].
      by intros _ v.
  - intros v Hty Hk. rewrite (to_python_type_eq d v Hty). simpl.
    destruct (base_type_cases v) as [[_ ->]|[[_ ->]|[[_ ->]|[-> _]]]];
      try done.
    repeat split. by eexists _, _.
Qed.

Lemma to_python_type_warnings_witness :
  to_python_type bad_dim_type
  = ([unknown_type_warning (VStr "enum")],
     Raise (TypeError
       "'>=' not supported between instances of 'str' and 'int'")).
Proof.
  pose proof (to_python_type_warnings bad_dim_type) as [_ Hwarn].
  destruct (Hwarn (VStr "enum") eq_refl eq_refl) as (Hw & _ & _).
  apply injective_projections; [exact Hw | reflexivity].
Defined.

(** X3: only the keys ["type"], ["set"] and ["dim"] are read: binding or
    removing any other key changes neither the result nor the warnings. *)
Theorem to_python_type_other_keys (d : gmap string value) k v :
  k ≠ "type" → k ≠ "set" → k ≠ "dim" →
  to_python_type (<[k := v]> d) = to_python_type d
  ∧ to_python_type (delete k d) = to_python_type d.
Proof.
  intros Hty Hset Hdim. unfold to_python_type, wrap_set.
  by rewrite !lookup_insert_ne, !lookup_delete_ne by done.
Qed.

Lemma to_python_type_other_keys_witness :
  to_python_type (<["comment" := VNone]> bool_matrix_type)
  = to_python_type bool_matrix_type.
Proof.
  by apply (to_python_type_other_keys bool_matrix_type "comment" VNone).
Defined.

(** X4: an array of one more dimension is the [List] of the array: for
    [n >= 0] the result with ["dim": n + 1] is [List] of the result with
    ["dim": n]. A ["dim"] of zero or less is as good as none, and [True] and
    [False] count as 1 and 0. *)
Theorem to_python_type_dim (d : gmap string value) (n : Z) :
  ((0 ≤ n)%Z →
     (to_python_type (<["dim" := VInt (n + 1)]> d)).2
     = map_outcome TList (to_python_type (<["dim" := VInt n]> d)).2)
  ∧ ((n ≤ 0)%Z →
       to_python_type (<["dim" := VInt n]> d) = to_python_type (delete "dim" d))
  ∧ ∀ b : bool,
      to_python_type (<["dim" := VBool b]> d)
      = to_python_type (<["dim" := VInt (if b then 1 else 0)]> d).
Proof.
  split; [|split].
  - intros Hn. destruct (d !! "type") as [ty|] eqn:Hty.
    + rewrite !(to_python_type_eq _ ty) by by rewrite lookup_insert_ne.
      rewrite !lookup_insert_eq. unfold wrap_set.
      rewrite !lookup_insert_ne by done. simpl.
      by replace (Z.to_nat (n + 1)) with (S (Z.to_nat n)) by lia.
    + unfold to_python_type.
      rewrite !(lookup_insert_ne d "dim" "type") by done. by rewrite Hty.
  - intros Hn. destruct (d !! "type") as [ty|] eqn:Hty.
    + rewrite !(to_python_type_eq _ ty)
        by by rewrite ?lookup_insert_ne, ?lookup_delete_ne.
      rewrite lookup_insert_eq, lookup_delete_eq. unfold wrap_set.
      rewrite lookup_insert_ne, lookup_delete_ne by done. simpl.
      by replace (Z.to_nat n) with 0 by lia.
    + unfold to_python_type.
      rewrite (lookup_insert_ne d "dim" "type"),
        (lookup_delete_ne d "dim" "type") by done.
      by rewrite Hty.
  - intros b. unfold to_python_type, wrap_set.
    rewrite !lookup_insert_eq, !lookup_insert_ne by done.
    by destruct b.
Qed.

Lemma to_python_type_dim_witness :
  (to_python_type (<["dim" := VInt 3]> int_set_type)).2
  = Return (TList (TList (TList int_set)))
  ∧ to_python_type (<["dim" := VInt (-4)]> int_set_type)
    = ([], Return int_set).
Proof.
  split.
  - destruct (to_python_type_dim int_set_type 2) as [Hstep _].
    etrans; [apply Hstep; lia | reflexivity].
  - destruct (to_python_type_dim int_set_type (-4)) as (_ & Hneg & _).
    etrans; [apply Hneg; lia | reflexivity].
Defined.

(** What lines 37-54 build is one of the six types of [cores]. *)
Lemma wrap_set_core (d : gmap string value) v :
  wrap_set d (base_type v).2 ∈ cores.
Proof.
  unfold wrap_set, cores.
  destruct (base_type_cases v) as [[-> _]|[[-> _]|[[-> _]|[-> _]]]]; simpl;
    destruct (truthy _); simpl; apply list_elem_of_In; simpl; tauto.
Qed.

Lemma core_no_list c :
  c ∈ cores → strip_lists c = c ∧ depth c = 0.
Proof.
  unfold cores. rewrite !elem_of_cons, elem_of_nil.
  intros [->|[->|[->|[->|[->|[->|[]]]]]]]; done.
Qed.

Lemma strip_lists_iter n c :
  strip_lists (Nat.iter n TList c) = strip_lists c
  ∧ depth (Nat.iter n TList c) = n + depth c.
Proof. induction n as [|n [IH1 IH2]]; simpl; [done|]. by rewrite IH1, IH2. Qed.

(** What a returned type is made of. *)
Lemma to_python_type_Return (d : gmap string value) t :
  (to_python_type d).2 = Return t →
  ∃ v dim,
    d !! "type" = Some v
    ∧ as_int (default (VInt 0) (d !! "dim")) = Return dim
    ∧ t = Nat.iter (Z.to_nat dim) TList (wrap_set d (base_type v).2).
Proof.
  destruct (d !! "type") as [v|] eqn:Hty.
  - rewrite (to_python_type_eq d v Hty). simpl.
    destruct (as_int _) as [dim| |] eqn:Hdim; simpl; [|done..].
    intros [= <-]. by exists v, dim.
  - unfold to_python_type. by rewrite Hty.
Qed.

(** X5: every type the function returns is some [List]s around one of
    [bool], [float], [int], [Set[bool]], [Set[float]] and
    [Union[Set[int], range]], with as many [List]s as ["dim"] says (none
    for a ["dim"] below 1). In particular a set of integers is never
    [Set[int]], and no [List] is ever inside a set. *)
Theorem to_python_type_shape (d : gmap string value) t :
  (to_python_type d).2 = Return t →
  strip_lists t ∈ cores
  ∧ strip_lists t ≠ TSet TInt
  ∧ ∃ dim, as_int (default (VInt 0) (d !! "dim")) = Return dim
      ∧ depth t = Z.to_nat dim
      ∧ t = Nat.iter (Z.to_nat dim) TList (strip_lists t).
Proof.
  intros Hret.
  destruct (to_python_type_Return d t Hret) as (v & dim & Hty & Hdim & ->).
  pose proof (wrap_set_core d v) as Hcore.
  destruct (core_no_list _ Hcore) as [Hstrip Hdepth].
  destruct (strip_lists_iter (Z.to_nat dim) (wrap_set d (base_type v).2))
    as [-> ->].
  rewrite Hstrip, Hdepth. split; [done|]. split.
  - intros Heq. rewrite Heq in Hcore. unfold cores, int_set in Hcore.
    apply list_elem_of_In in Hcore. simpl in Hcore.
    by destruct Hcore as [|[|[|[|[|[|[]]]]]]].
  - exists dim. split; [done|]. split; [lia|done].
Qed.

Lemma to_python_type_shape_witness :
  strip_lists (TList (TList TBool)) ∈ cores
  ∧ depth (TList (TList TBool)) = 2.
Proof.
  destruct (to_python_type_shape bool_matrix_type (TList (TList TBool))
              eq_refl) as (Hcore & _ & dim & Hdim & Hdepth & _).
  split; [exact Hcore|]. injection Hdim as <-. exact Hdepth.
Defined.

(** X6: on the three known type names the result tells the description
    apart: two dicts that give the same type have the same type name, the
    same truth of ["set"] and the same number of dimensions. *)
Theorem to_python_type_injective (d1 d2 : gmap string value) v1 v2 t :
  d1 !! "type" = Some v1 → known v1 = true →
  d2 !! "type" = Some v2 → known v2 = true →
  (to_python_type d1).2 = Return t →
  (to_python_type d2).2 = Return t →
  v1 = v2
  ∧ truthy (default (VBool false) (d1 !! "set"))
    = truthy (default (VBool false) (d2 !! "set"))
  ∧ ∃ dim1 dim2,
      as_int (default (VInt 0) (d1 !! "dim")) = Return dim1
      ∧ as_int (default (VInt 0) (d2 !! "dim")) = Return dim2
      ∧ Z.to_nat dim1 = Z.to_nat dim2.
Proof.
  intros Hty1 Hk1 Hty2 Hk2 Hret1 Hret2.
  destruct (to_python_type_Return d1 t Hret1) as (w1 & dim1 & Hw1 & Hdim1 & Ht1).
  destruct (to_python_type_Return d2 t Hret2) as (w2 & dim2 & Hw2 & Hdim2 & Ht2).
  simplify_eq.
  assert (Z.to_nat dim1 = Z.to_nat dim2
          ∧ wrap_set d1 (base_type v1).2 = wrap_set d2 (base_type v2).2)
    as [Hn Hcore].
  { pose proof (strip_lists_iter (Z.to_nat dim1)
                  (wrap_set d1 (base_type v1).2)) as [Hs1 Hd1].
    pose proof (strip_lists_iter (Z.to_nat dim2)
                  (wrap_set d2 (base_type v2).2)) as [Hs2 Hd2].
    rewrite Ht2 in Hs1, Hd1.
    destruct (core_no_list _ (wrap_set_core d1 v1)) as [Hc1 Hz1].
    destruct (core_no_list _ (wrap_set_core d2 v2)) as [Hc2 Hz2].
    split; [lia | congruence]. }
  assert (v1 = v2
          ∧ truthy (default (VBool false) (d1 !! "set"))
            = truthy (default (VBool false) (d2 !! "set"))) as [-> Hset].
  { revert Hcore. unfold wrap_set.
    apply known_cases in Hk1 as [->|[->| ->]];
      apply known_cases in Hk2 as [->|[->| ->]];
      destruct (truthy (default (VBool false) (d1 !! "set")));
      destruct (truthy (default (VBool false) (d2 !! "set")));
      simpl; by intros [=]. }
  split; [done|]. split; [done|]. by exists dim1, dim2.
Qed.

Lemma to_python_type_injective_witness :
  truthy (default (VBool false) (float_sets_type !! "set"))
  = truthy (default (VBool false) (float_set_array_type !! "set")).
Proof.
  by destruct (to_python_type_injective float_sets_type float_set_array_type
                 (VStr "float") (VStr "float") (TList (TSet TFloat))
                 eq_refl eq_refl eq_refl eq_refl eq_refl eq_refl)
    as (_ & Hset & _).
Defined.

(** X7: ["set"] counts by its truth alone: a value that is false ([False],
    [0], the empty string, [None]) is as good as no ["set"], and a value
    that is true is as good as [True]. *)
Theorem to_python_type_set_truth (d : gmap string value) v :
  (truthy v = false →
     to_python_type (<["set" := v]> d) = to_python_type (delete "set" d))
  ∧ (truthy v = true →
       to_python_type (<["set" := v]> d)
       = to_python_type (<["set" := VBool true]> d)).
Proof.
  split; intros Hv; unfold to_python_type, wrap_set;
    rewrite ?lookup_insert_eq, ?lookup_delete_eq;
    rewrite ?(lookup_insert_ne d "set" "type"), ?(lookup_insert_ne d "set" "dim"),
      ?(lookup_delete_ne d "set" "type"), ?(lookup_delete_ne d "set" "dim")
      by done;
    simpl; by rewrite Hv.
Qed.

Lemma to_python_type_set_truth_witness :
  to_python_type (<["set" := VInt 0]> int_type) = ([], Return TInt)
  ∧ to_python_type (<["set" := VStr "false"]> int_type)
    = ([], Return int_set).
Proof.
  split.
  - destruct (to_python_type_set_truth int_type (VInt 0)) as [Hfalse _].
    etrans; [apply Hfalse; reflexivity | reflexivity].
  - destruct (to_python_type_set_truth int_type (VStr "false")) as [_ Htrue].
    etrans; [apply Htrue; reflexivity | reflexivity].
Defined.

End ToPythonTypeMore.

(** ** More of the pattern of [check_version] *)

Module VersionPatternMore.

Import VersionPattern Traces.

(** With no digit to follow, the last group is exactly the digits given. *)
Lemma match_here_exact m suf g1 g2 g3 :
  matched m g1 g2 g3 → no_digit_first suf →
  match_here (m ++ suf) = Some (g1, g2, g3).
Proof.
  intros (-> & Hg1 & Hg2 & [Hne Hg3]) Hsuf. unfold match_here.
  repeat (rewrite <- app_assoc || rewrite <- app_comm_cons).
  rewrite VersionPatternSpec.strip_prefix_app. simpl.
  rewrite (VersionPatternSpec.group_dot _ _ Hg1). simpl.
  rewrite (VersionPatternSpec.group_dot _ _ Hg2). simpl.
  unfold group. rewrite VersionPatternSpec.span_digits_app by done.
  by destruct g3.
Qed.

(** A match has a digit in its ninth place. *)
Lemma match_here_digit (s : list byte) g :
  match_here s = Some g → ∃ b, s !! 8 = Some b ∧ is_digit b = true.
Proof.
  destruct g as [[g1 g2] g3]. intros Hm.
  destruct (VersionPatternSpec.match_here_Some _ _ _ _ Hm)
    as (m & suf & -> & (-> & [Hne Hd] & _) & _).
  destruct g1 as [|b g1]; [done|]. exists b.
  split; [reflexivity|]. by inversion Hd.
Qed.

(** No match starts in a text without digits that comes before the
    literal. *)
Lemma match_here_no_digit pre rest :
  pre ≠ [] → no_digit pre → match_here (pre ++ literal ++ rest) = None.
Proof.
  intros Hne Hpre.
  destruct (match_here (pre ++ literal ++ rest)) as [g|] eqn:Hm; [|done].
  destruct (match_here_digit _ _ Hm) as (b & Hb & Hdigit). exfalso.
  destruct (decide (8 < length pre)) as [Hlt|Hge].
  - rewrite lookup_app_l in Hb by done.
    unfold no_digit in Hpre. rewrite Forall_lookup in Hpre.
    specialize (Hpre _ _ Hb). simpl in Hpre. congruence.
  - assert (0 < length pre) by (destruct pre; [done | simpl; lia]).
    rewrite lookup_app_r in Hb by lia.
    rewrite lookup_app_l in Hb by (simpl; lia).
    assert (Forall (λ b, is_digit b = false) literal) as Hlit
      by (by repeat constructor).
    rewrite Forall_lookup in Hlit. specialize (Hlit _ _ Hb). simpl in Hlit.
    congruence.
Qed.

(** The first match is found behind any text without digits. *)
Lemma search_exact pre m suf g1 g2 g3 :
  no_digit pre → matched m g1 g2 g3 → no_digit_first suf →
  search (pre ++ m ++ suf) = Some (g1, g2, g3).
Proof.
  intros Hpre Hm Hsuf. induction Hpre as [|b pre Hb Hpre IH].
  - simpl. destruct (m ++ suf) as [|b s] eqn:Hs.
    + destruct Hm as (-> & _). done.
    + simpl. rewrite <- Hs. by rewrite (match_here_exact m suf g1 g2 g3).
  - change (search ((b :: pre) ++ m ++ suf))
      with (match match_here ((b :: pre) ++ m ++ suf) with
            | Some g => Some g
            | None => search (pre ++ m ++ suf)
            end).
    destruct Hm as (-> & Hg).
    rewrite <- (app_assoc literal), match_here_no_digit;
      [|done|by constructor].
    rewrite (app_assoc literal). exact IH.
Qed.

Lemma decimal_fold_acc d (acc : positive) :
  fold_left (λ acc b, 10 * acc + (Z.of_N (Byte.to_N b) - 48))%Z
    (list_byte_of_string (NilEmpty.string_of_uint d)) (Z.pos acc)
  = Z.pos (Pos.of_uint_acc d acc).
Proof.
  revert acc. induction d as [|d IH|d IH|d IH|d IH|d IH|d IH|d IH|d IH|d IH|d IH];
    intros acc; simpl; [done|..]; rewrite <- IH; f_equal; lia.
Qed.

Lemma decimal_fold d :
  int_of_digits (list_byte_of_string (NilEmpty.string_of_uint d))
  = Z.of_N (Pos.of_uint d).
Proof.
  unfold int_of_digits.
  induction d as [|d IH|d IH|d IH|d IH|d IH|d IH|d IH|d IH|d IH|d IH];
    simpl; [done|exact IH|..]; apply decimal_fold_acc.
Qed.

Lemma decimal_all_digits d :
  Forall (λ b, is_digit b = true)
    (list_byte_of_string (NilEmpty.string_of_uint d)).
Proof. induction d; simpl; by constructor. Qed.

(** [str(n)] of a number that is not negative is a run of digits, and
    [int] reads the number back from it. *)
Lemma decimal_digits n :
  (0 ≤ n)%Z → digits (decimal n) ∧ int_of_digits (decimal n) = n.
Proof.
  intros Hn. unfold decimal, str_int. destruct n as [|p|p]; [|simpl|lia].
  - split; [|done]. split; [done|]. by repeat constructor.
  - split; [split|].
    + pose proof (DecimalPos.Unsigned.to_uint_nonnil p) as Hnil.
      by destruct (Pos.to_uint p).
    + apply decimal_all_digits.
    + by rewrite decimal_fold, DecimalPos.Unsigned.of_to.
Qed.

End VersionPatternMore.

(** ** The order of versions *)

Module VersionMore.

Import VersionPattern Traces.

Lemma tuple_lt_cons x a y b :
  tuple_lt (x :: a) (y :: b) = if (x =? y)%Z then tuple_lt a b else (x <? y)%Z.
Proof. done. Qed.

Lemma tuple_lt_irrefl a : tuple_lt a a = false.
Proof.
  induction a as [|x a IH]; [done|].
  by rewrite tuple_lt_cons, Z.eqb_refl.
Qed.

Lemma tuple_lt_trans a b c :
  tuple_lt a b = true → tuple_lt b c = true → tuple_lt a c = true.
Proof.
  revert b c. induction a as [|x a IH]; intros [|y b] [|z c]; try done.
  rewrite !tuple_lt_cons.
  destruct (Z.eqb_spec x y), (Z.eqb_spec y z), (Z.eqb_spec x z);
    rewrite ?Z.ltb_lt; try lia; try apply IH; try done.
Qed.

Lemma tuple_lt_total a b :
  tuple_lt a b = false → tuple_lt b a = false → a = b.
Proof.
  revert b. induction a as [|x a IH]; intros [|y b]; try done.
  rewrite !tuple_lt_cons.
  destruct (Z.eqb_spec x y), (Z.eqb_spec y x); rewrite ?Z.ltb_ge; try lia.
  intros Hab Hba. subst. f_equal. by apply IH.
Qed.

(** X15: [<] on version tuples is a strict total order, so that the check
    is monotone: a version that passes a requirement passes every lower
    requirement, and where a version passes, every newer version passes. *)
Theorem tuple_lt_order :
  (∀ a, tuple_lt a a = false)
  ∧ (∀ a b c, tuple_lt a b = true → tuple_lt b c = true → tuple_lt a c = true)
  ∧ (∀ a b, tuple_lt a b = false → tuple_lt b a = false → a = b)
  ∧ (∀ found required lower,
       tuple_lt found required = false → tuple_lt lower required = true →
       tuple_lt found lower = false)
  ∧ (∀ found newer required,
       tuple_lt found required = false → tuple_lt found newer = true →
       tuple_lt newer required = false).
Proof.
  split; [exact tuple_lt_irrefl|]. split; [exact tuple_lt_trans|].
  split; [exact tuple_lt_total|]. split.
  - intros found required lower Hpass Hlower.
    destruct (tuple_lt found lower) eqn:Hlt; [|done].
    by rewrite (tuple_lt_trans _ _ _ Hlt Hlower) in Hpass.
  - intros found newer required Hpass Hnewer.
    destruct (tuple_lt newer required) eqn:Hlt; [|done].
    by rewrite (tuple_lt_trans _ _ _ Hnewer Hlt) in Hpass.
Qed.

Lemma int_of_digits_nonneg g : digits g → (0 ≤ int_of_digits g)%Z.
Proof.
  intros [_ Hg]. unfold int_of_digits.
  assert (∀ acc, (0 ≤ acc)%Z →
            (0 ≤ fold_left
                   (λ acc b, 10 * acc + (Z.of_N (Byte.to_N b) - 48)) g acc)%Z)
    as Hfold; [|by apply Hfold].
  induction Hg as [|b g Hb _ IH]; intros acc Hacc; simpl; [done|].
  apply IH. unfold is_digit in Hb. apply andb_prop in Hb as [Hlo _].
  apply N.leb_le in Hlo. lia.
Qed.

(** The version found is three numbers, none of them negative. *)
Lemma found_version_Some out found :
  found_version out = Some found →
  length found = 3 ∧ Forall (λ x, (0 ≤ x)%Z) found.
Proof.
  unfold found_version.
  destruct (search out) as [[[g1 g2] g3]|] eqn:Hs; [|done].
  intros [= <-]. split; [done|].
  destruct (VersionPatternSpec.search_first _ _ _ _ Hs)
    as (_ & _ & _ & _ & (_ & ? & ? & ?) & _).
  repeat constructor; by apply int_of_digits_nonneg.
Qed.

(** Numbers that are not negative are not below numbers that are not
    positive, when these are no more. *)
Lemma tuple_lt_nonpositive found required :
  Forall (λ x, (0 ≤ x)%Z) found → Forall (λ r, (r ≤ 0)%Z) required →
  length required ≤ length found →
  tuple_lt found required = false.
Proof.
  intros Hf. revert required.
  induction Hf as [|x found Hx _ IH]; intros required Hr Hlen.
  - by destruct required; simpl in *; [|lia].
  - destruct Hr as [|r required Hr0 Hr]; [done|].
    rewrite tuple_lt_cons. destruct (Z.eqb_spec x r).
    + apply IH; [done|]. simpl in Hlen. lia.
    + apply Z.ltb_ge. lia.
Qed.

(** The version of a banner in decimal is read back as it is. *)
Lemma found_version_banner pre a b c suf :
  (0 ≤ a)%Z → (0 ≤ b)%Z → (0 ≤ c)%Z → no_digit pre → no_digit_first suf →
  found_version (banner pre a b c suf) = Some [a; b; c].
Proof.
  intros Ha Hb Hc Hpre Hsuf.
  destruct (VersionPatternMore.decimal_digits a Ha) as [Hda Hia].
  destruct (VersionPatternMore.decimal_digits b Hb) as [Hdb Hib].
  destruct (VersionPatternMore.decimal_digits c Hc) as [Hdc Hic].
  assert (banner pre a b c suf
          = pre ++ (literal ++ decimal a ++ dot :: decimal b
                      ++ dot :: decimal c) ++ suf) as ->.
  { unfold banner.
    by repeat (rewrite <- app_assoc || rewrite <- app_comm_cons). }
  unfold found_version.
  rewrite (VersionPatternMore.search_exact pre _ suf
             (decimal a) (decimal b) (decimal c)); [|done|by split|done].
  simpl. by rewrite Hia, Hib, Hic.
Qed.

Lemma int_of_digits_zeros k g :
  int_of_digits (replicate k "0"%byte ++ g) = int_of_digits g.
Proof.
  unfold int_of_digits. rewrite fold_left_app.
  by induction k as [|k IH]; simpl.
Qed.

Lemma digits_zeros k g : digits g → digits (replicate k "0"%byte ++ g).
Proof.
  intros [Hne Hg]. split.
  - by destruct k, g.
  - apply Forall_app. split; [|done].
    by apply Forall_replicate.
Qed.

(** X19: only the first version of the output counts, and it counts by its
    value: behind a text with no digit, the version found is the same
    whatever follows it (that does not start with a digit), be it another
    version, and the same with zeros put before its numbers. *)
Theorem found_version_stable pre g1 g2 g3 suf k1 k2 k3 :
  no_digit pre → digits g1 → digits g2 → digits g3 → no_digit_first suf →
  let version := literal ++ g1 ++ dot :: g2 ++ dot :: g3 in
  let padded :=
    literal ++ (replicate k1 "0"%byte ++ g1)
      ++ dot :: (replicate k2 "0"%byte ++ g2)
      ++ dot :: (replicate k3 "0"%byte ++ g3) in
  found_version (pre ++ version ++ suf)
  = Some [int_of_digits g1; int_of_digits g2; int_of_digits g3]
  ∧ found_version (pre ++ version ++ suf) = found_version (pre ++ version)
  ∧ found_version (pre ++ padded ++ suf) = found_version (pre ++ version ++ suf).
Proof.
  intros Hpre Hg1 Hg2 Hg3 Hsuf version padded.
  assert (∀ s, no_digit_first s →
            found_version (pre ++ version ++ s)
            = Some [int_of_digits g1; int_of_digits g2; int_of_digits g3])
    as Hversion.
  { intros s Hs. unfold found_version.
    by rewrite (VersionPatternMore.search_exact pre version s g1 g2 g3). }
  split; [by apply Hversion|]. split.
  - rewrite (Hversion suf Hsuf).
    rewrite <- (app_nil_r version) at 1. symmetry. by apply Hversion.
  - rewrite (Hversion suf Hsuf). unfold found_version.
    rewrite (VersionPatternMore.search_exact pre padded suf
               (replicate k1 "0"%byte ++ g1) (replicate k2 "0"%byte ++ g2)
               (replicate k3 "0"%byte ++ g3)); [|done| |done].
    + simpl. by rewrite !int_of_digits_zeros.
    + split; [done|]. by repeat split; apply digits_zeros.
Qed.

Lemma found_version_stable_witness :
  found_version
    (list_byte_of_string "MiniZinc version 02.006.1, not version 9.9.9")
  = Some [2; 6; 1]%Z.
Proof.
  pose proof (found_version_stable (list_byte_of_string "MiniZinc ")
                ["2"%byte] ["6"%byte] ["1"%byte]
                (list_byte_of_string ", not version 9.9.9") 1 2 0)
    as Hstable.
  destruct Hstable as (Hfound & _ & Hpadded).
  - by repeat constructor.
  - split; [done|]. by repeat constructor.
  - split; [done|]. by repeat constructor.
  - split; [done|]. by repeat constructor.
  - by intros b [= <-].
  - etrans; [exact Hpadded|]. exact Hfound.
Defined.

End VersionMore.

(** ** More of [CLIDriver] *)

Module CLIMore.

Import VersionPattern CLI Traces Package.

Section More.
Context `{Host}.

Implicit Types (self : CLIDriver) (solver : option Solver)
  (timeout : option timedelta) (cmd : list string).

Ltac child_cases :=
  unfold subprocess_run, create_subprocess_exec, expires;
  repeat match goal with
    | |- context [child ?c] => destruct (child c) eqn:?
    | |- context [exec ?c] => destruct (exec c) eqn:?
    | |- context [float_lt ?a ?b] => destruct (float_lt a b) eqn:?
    | |- context [decide ?P] => destruct (decide P)
    | |- context [match ?t with None => _ | Some _ => _ end] =>
        destruct t eqn:?
    end; simpl.

(** X8: what [run] returns is never a failed process: the exit status of the
    returned [CompletedProcess] is zero, its [args] are the command line, and
    its outputs are those of a child that exited by itself before the
    timeout, if there was one. *)
Theorem run_returns self (arguments : list arg) solver timeout output :
  result (run self arguments solver timeout) = Return output →
  returncode output = 0%Z
  ∧ args output = command_line self arguments solver
  ∧ ∃ elapsed,
      child (command_line self arguments solver)
      = Exits elapsed 0 (stdout output) (stderr output)
      ∧ expires elapsed (total_seconds <$> timeout) = false.
Proof.
  rewrite CLISpec.result_run. unfold subprocess_run.
  destruct (child _) as [elapsed rc out err| |errno] eqn:Hchild.
  - destruct (expires elapsed _) eqn:Hexp; [done|]. simpl.
    destruct (decide (rc ≠ 0%Z)) as [|Hrc]; [done|].
    intros [= <-]. simpl.
    assert (rc = 0%Z) as -> by (by destruct (decide (rc = 0%Z))).
    eauto.
  - by destruct (total_seconds <$> timeout).
  - done.
Qed.

(** X9: what a raise of [run] tells. When [run] raises a parsed error, the
    child exited in time with a status that is not zero and the error is
    what [parse_error] makes of its standard error; when [run] raises
    [TimeoutExpired], a timeout was given, the child outlived it, and the
    exception holds the command line and the timeout in seconds. *)
Theorem run_raises self (arguments : list arg) solver timeout :
  let cmd := command_line self arguments solver in
  (∀ e, result (run self arguments solver timeout) = Raise (Parsed e) →
     ∃ elapsed rc out err,
       child cmd = Exits elapsed rc out err ∧ rc ≠ 0%Z
       ∧ expires elapsed (total_seconds <$> timeout) = false
       ∧ e = parse_error err)
  ∧ (∀ c t,
       result (run self arguments solver timeout) = Raise (TimeoutExpired c t) →
       ∃ td, timeout = Some td
         ∧ overruns (child cmd) (total_seconds td) = true
         ∧ c = cmd ∧ t = Some (total_seconds td)).
Proof.
  intros cmd. rewrite CLISpec.result_run. fold cmd. unfold subprocess_run.
  destruct (child cmd) as [elapsed rc out err| |errno] eqn:Hchild.
  - destruct (expires elapsed _) eqn:Hexp; simpl.
    + split; [done|]. intros c t [= <- <-].
      destruct timeout as [td|]; [|done]. by exists td.
    + destruct (decide (rc ≠ 0%Z)) as [Hrc|]; [|done].
      split; [|done]. intros e [= <-]. by exists elapsed, rc, out, err.
  - destruct timeout as [td|]; simpl; [|done].
    split; [done|]. intros c t [= <- <-]. by exists td.
  - done.
Qed.

(** X10: [create_process] starts the child and hands back its handle
    without waiting for it: it ends as [asyncio.create_subprocess_exec] ends
    on the command line, with the handle or with [OSError]; it never waits,
    never ends a child and never looks at an exit status. *)
Theorem create_process_outcome self (arguments : list arg) solver :
  let cmd := command_line self arguments solver in
  result (create_process self arguments solver)
  = match exec cmd with
    | inl proc => Return proc
    | inr errno => Raise (Builtin (OSError errno))
    end
  ∧ Forall (λ e, waits e = false) (trace (create_process self arguments solver))
  ∧ filter (λ e, starts e = true) (trace (create_process self arguments solver))
    = [Spawn cmd Inherit PIPE PIPE].
Proof.
  intros cmd. subst cmd.
  unfold create_process, with_configuration, create_subprocess_exec,
    command_line.
  destruct solver as [s|]; simpl; destruct (exec _); simpl.
  all: split; [done|]; split; [by repeat constructor|done].
Qed.

Lemma append_nil_r (a : string) : a +:+ EmptyString = a.
Proof.
  induction a as [|x a IH]; [done|].
  change (String x (a +:+ EmptyString) = String x a). by rewrite IH.
Qed.

(** The message of [create_process] holds the executable, the arguments
    and the flags that were put before them. *)
Lemma create_process_message_contains program flags (arguments : list arg) :
  let msg := create_process_message program flags arguments in
  contains program msg
  ∧ contains (join " " (map str arguments)) msg
  ∧ ∀ conf, flags = "--solver " +:+ conf +:+ " " → contains conf msg.
Proof.
  intros msg. subst msg. unfold create_process_message.
  set (a := join " " (map str arguments)). split; [|split].
  - by exists "CLIDriver:create_process -> program: ",
      (" args: " +:+ dquote +:+ flags +:+ "--allow-multiple-assignments "
         +:+ a +:+ dquote).
  - exists ("CLIDriver:create_process -> program: " +:+ program +:+ " args: "
              +:+ dquote +:+ flags +:+ "--allow-multiple-assignments "),
      dquote.
    by rewrite !CLISpec.append_assoc.
  - intros conf ->.
    exists ("CLIDriver:create_process -> program: " +:+ program +:+ " args: "
              +:+ dquote +:+ "--solver "),
      (" " +:+ "--allow-multiple-assignments " +:+ a +:+ dquote).
    by rewrite !CLISpec.append_assoc.
Qed.

(** X11: [run] and [create_process] write one message to the logger, before
    they start the child and, with a solver, right after they entered the
    scope of its token. The message of [run] holds the whole command, its
    parts joined by blanks, and the timeout; that of [create_process] holds
    the executable, the arguments joined by blanks and, with a solver, the
    token. *)
Theorem logged_before_started self (arguments : list arg) solver timeout :
  let cmd := command_line self arguments solver in
  let t := total_seconds <$> timeout in
  let pre :=
    match solver with
    | None => []
    | Some s => [Acquire (configuration s)]
    end in
  (∃ post,
     trace (run self arguments solver timeout)
     = pre ++ Debug (run_message cmd t) :: Run cmd Inherit PIPE PIPE t :: post
     ∧ Forall (λ e, starts e = false) post)
  ∧ messages (trace (run self arguments solver timeout)) = [run_message cmd t]
  ∧ contains (join " " cmd) (run_message cmd t)
  ∧ contains (format_timeout t) (run_message cmd t)
  ∧ ∃ msg post,
      trace (create_process self arguments solver)
      = pre ++ Debug msg :: Spawn cmd Inherit PIPE PIPE :: post
      ∧ Forall (λ e, starts e = false) post
      ∧ messages (trace (create_process self arguments solver)) = [msg]
      ∧ contains (str_path (_executable self)) msg
      ∧ contains (join " " (map str arguments)) msg
      ∧ ∀ s, solver = Some s → contains (configuration s) msg.
Proof.
  intros cmd t pre. split; [|split; [|split; [|split]]].
  - destruct (CLISpec.trace_subprocess_run cmd t) as (after & Hrun & Hafter).
    destruct solver as [s|]; subst pre.
    + rewrite CLISpec.trace_run_Some. fold cmd t. rewrite Hrun.
      eexists. split; [reflexivity|].
      apply Forall_app. split.
      * destruct Hafter as [->|[->|[rc ->]]]; by repeat constructor.
      * destruct (result _); by repeat constructor.
    + rewrite CLISpec.trace_run_None. fold cmd t. rewrite Hrun.
      eexists. split; [reflexivity|].
      destruct Hafter as [->|[->|[rc ->]]]; by repeat constructor.
  - destruct solver as [s|].
    + rewrite CLISpec.trace_run_Some. fold cmd t. by child_cases.
    + rewrite CLISpec.trace_run_None. fold cmd t. by child_cases.
  - unfold run_message.
    exists ("CLIDriver:run -> command: " +:+ dquote),
      (dquote +:+ ", timeout " +:+ format_timeout t).
    by rewrite !CLISpec.append_assoc.
  - unfold run_message.
    exists ("CLIDriver:run -> command: " +:+ dquote +:+ join " " cmd
              +:+ dquote +:+ ", timeout "), EmptyString.
    by rewrite !CLISpec.append_assoc, append_nil_r.
  - subst cmd pre.
    unfold create_process, with_configuration, create_subprocess_exec,
      command_line.
    destruct solver as [s|]; simpl.
    + destruct (create_process_message_contains
                  (str_path (_executable self))
                  ("--solver " +:+ configuration s +:+ " ") arguments)
        as (Hp & Ha & Hc).
      eexists _, [Release (configuration s)].
      destruct (exec _); simpl.
      all: split; [reflexivity|]; split; [by repeat constructor|].
      all: split; [reflexivity|]; split; [exact Hp|]; split; [exact Ha|].
      all: intros ? [= <-]; by apply Hc.
    + destruct (create_process_message_contains
                  (str_path (_executable self)) EmptyString arguments)
        as (Hp & Ha & _).
      eexists _, [].
      destruct (exec _); simpl.
      all: split; [reflexivity|]; split; [by constructor|].
      all: split; [reflexivity|]; split; [exact Hp|]; split; [exact Ha|].
      all: by intros ?.
Qed.

Lemma trace_check_version self :
  trace (check_version self) = trace (run self [Str "--version"] None None).
Proof.
  unfold check_version.
  destruct (run self _ None None) as [t [output| |]]; simpl; [|done..].
  destruct (search _) as [[[g1 g2] g3]|]; simpl; [|by rewrite app_nil_r].
  destruct (tuple_lt _ required_version); simpl; by rewrite app_nil_r.
Qed.

(** The two version calls, by what becomes of the child. *)
Lemma result_version_calls self :
  let cmd :=
    [str_path (_executable self); "--allow-multiple-assignments"; "--version"]
  in
  result (check_version self)
  = match child cmd with
    | Exits _ rc out err =>
        if decide (rc ≠ 0%Z) then Raise (Parsed (parse_error err))
        else verdict self out
    | Lingers => Blocked
    | Unspawnable errno => Raise (Builtin (OSError errno))
    end
  ∧ result (minizinc_version self)
    = match child cmd with
      | Exits _ rc out err =>
          if decide (rc ≠ 0%Z) then Raise (Parsed (parse_error err))
          else match decode out with
               | Some s => Return s
               | None => Raise (Builtin UnicodeDecodeError)
               end
      | Lingers => Blocked
      | Unspawnable errno => Raise (Builtin (OSError errno))
      end.
Proof.
  intros cmd. unfold check_version, minizinc_version, verdict, found_version.
  pose proof (CLISpec.result_run self [Str "--version"] None None) as Hres.
  rewrite CLISpec.command_line_version in Hres. fold cmd in Hres.
  unfold subprocess_run in Hres.
  destruct (run self [Str "--version"] None None) as [t o].
  unfold result in *. simpl in Hres. subst o.
  destruct (child cmd) as [elapsed rc out err| |errno]; simpl; [|done..].
  destruct (decide (rc ≠ 0%Z)); simpl; [done|]. split.
  - destruct (search out) as [[[g1 g2] g3]|]; simpl; [|done].
    by destruct (tuple_lt _ required_version).
  - by destruct (decode out).
Qed.

(** X12: [check_version] does nothing to the world but what the version
    property does: one synchronous start of the executable with
    ["--allow-multiple-assignments"] and ["--version"], without timeout and
    without entering the scope of a solver. *)
Theorem version_query_only self :
  let cmd :=
    [str_path (_executable self); "--allow-multiple-assignments"; "--version"]
  in
  trace (check_version self) = trace (minizinc_version self)
  ∧ filter (λ e, starts e = true) (trace (check_version self))
    = [Run cmd Inherit PIPE PIPE None]
  ∧ Forall (λ e, scopes e = false) (trace (check_version self))
  ∧ messages (trace (check_version self)) = [run_message cmd None].
Proof.
  intros cmd.
  rewrite trace_check_version, CLISpec.trace_minizinc_version.
  split; [done|]. rewrite CLISpec.trace_run_None. simpl. fold cmd.
  child_cases; (split; [done|]); (split; [by repeat constructor|done]).
Qed.

(** X13: how [check_version] ends, case by case. It raises
    [ConfigurationError] exactly when the child exits with status zero and
    its output has a version below [required_version]; it returns exactly
    when that version is not below; it fails on [None] exactly when the
    output has no version; it raises the parsed error exactly when the
    child exits with another status; and it never raises
    [TimeoutExpired]. *)
Theorem check_version_outcome self :
  let cmd :=
    [str_path (_executable self); "--allow-multiple-assignments"; "--version"]
  in
  ((∃ msg, result (check_version self) = Raise (ConfigurationError msg))
   ↔ ∃ elapsed out err found,
       child cmd = Exits elapsed 0 out err ∧ found_version out = Some found
       ∧ tuple_lt found required_version = true)
  ∧ (result (check_version self) = Return tt
     ↔ ∃ elapsed out err found,
         child cmd = Exits elapsed 0 out err ∧ found_version out = Some found
         ∧ tuple_lt found required_version = false)
  ∧ (result (check_version self) = Raise (Builtin no_groups)
     ↔ ∃ elapsed out err,
         child cmd = Exits elapsed 0 out err ∧ found_version out = None)
  ∧ ((∃ e, result (check_version self) = Raise (Parsed e))
     ↔ ∃ elapsed rc out err, child cmd = Exits elapsed rc out err ∧ rc ≠ 0%Z)
  ∧ ∀ c t, result (check_version self) ≠ Raise (TimeoutExpired c t).
Proof.
  intros cmd. destruct (result_version_calls self) as [-> _]. fold cmd.
  destruct (child cmd) as [elapsed rc out err| |errno].
  - destruct (decide (rc ≠ 0%Z)) as [Hrc|Hrc].
    + split; [|split; [|split; [|split]]]; [| | | |done].
      * split; [by intros [? ?]|].
        intros (? & ? & ? & ? & [= _ ? _ _] & _). congruence.
      * split; [done|]. intros (? & ? & ? & ? & [= _ ? _ _] & _). congruence.
      * split; [done|]. intros (? & ? & ? & [= _ ? _ _] & _). congruence.
      * split; [|by eauto]. intros _. by exists elapsed, rc, out, err.
    + assert (rc = 0%Z) as -> by (by destruct (decide (rc = 0%Z))).
      unfold verdict.
      destruct (found_version out) as [found|] eqn:Hfound;
        [destruct (tuple_lt found required_version) eqn:Hlt|].
      * split; [|split; [|split; [|split]]]; [| | | |done].
        -- split; [|by eauto]. intros _. by exists elapsed, out, err, found.
        -- split; [done|].
           intros (? & ? & ? & ? & [= _ <- _] & ? & ?). congruence.
        -- split; [done|]. intros (? & ? & ? & [= _ <- _] & ?). congruence.
        -- split; [by intros [? ?]|]. intros (? & ? & ? & ? & [= _ ? _ _] & ?).
           congruence.
      * split; [|split; [|split; [|split]]]; [| | | |done].
        -- split; [by intros [? ?]|].
           intros (? & ? & ? & ? & [= _ <- _] & ? & ?). congruence.
        -- split; [|done]. intros _. by exists elapsed, out, err, found.
        -- split; [done|]. intros (? & ? & ? & [= _ <- _] & ?). congruence.
        -- split; [by intros [? ?]|]. intros (? & ? & ? & ? & [= _ ? _ _] & ?).
           congruence.
      * split; [|split; [|split; [|split]]]; [| | | |done].
        -- split; [by intros [? ?]|].
           intros (? & ? & ? & ? & [= _ <- _] & ? & ?). congruence.
        -- split; [done|].
           intros (? & ? & ? & ? & [= _ <- _] & ? & ?). congruence.
        -- split; [|done]. intros _. by exists elapsed, out, err.
        -- split; [by intros [? ?]|]. intros (? & ? & ? & ? & [= _ ? _ _] & ?).
           congruence.
  - split; [|split; [|split; [|split]]]; [| | | |done].
    + split; [by intros [? ?]|]. by intros (? & ? & ? & ? & ? & _).
    + split; [done|]. by intros (? & ? & ? & ? & ? & _).
    + split; [done|]. by intros (? & ? & ? & ? & _).
    + split; [by intros [? ?]|]. by intros (? & ? & ? & ? & ? & _).
  - split; [|split; [|split; [|split]]]; [| | | |done].
    + split; [by intros [? ?]|]. by intros (? & ? & ? & ? & ? & _).
    + split; [done|]. by intros (? & ? & ? & ? & ? & _).
    + split; [done|]. by intros (? & ? & ? & ? & _).
    + split; [by intros [? ?]|]. by intros (? & ? & ? & ? & ? & _).
Qed.

(** X14: how the version property ends, case by case. It returns a string
    exactly when the child exits with status zero and its output decodes to
    that string; it raises [UnicodeDecodeError] exactly when the child exits
    with status zero and its output does not decode; and it never compares
    versions: it raises no [ConfigurationError], whatever the version. *)
Theorem minizinc_version_outcome self :
  let cmd :=
    [str_path (_executable self); "--allow-multiple-assignments"; "--version"]
  in
  (∀ s, result (minizinc_version self) = Return s
        ↔ ∃ elapsed out err,
            child cmd = Exits elapsed 0 out err ∧ decode out = Some s)
  ∧ (result (minizinc_version self) = Raise (Builtin UnicodeDecodeError)
     ↔ ∃ elapsed out err,
         child cmd = Exits elapsed 0 out err ∧ decode out = None)
  ∧ ∀ msg, result (minizinc_version self) ≠ Raise (ConfigurationError msg).
Proof.
  intros cmd. destruct (result_version_calls self) as [_ ->]. fold cmd.
  destruct (child cmd) as [elapsed rc out err| |errno].
  - destruct (decide (rc ≠ 0%Z)) as [Hrc|Hrc].
    + split; [|split]; [| |done].
      * intros s. split; [done|].
        intros (? & ? & ? & [= _ ? _ _] & _). congruence.
      * split; [done|]. intros (? & ? & ? & [= _ ? _ _] & _). congruence.
    + assert (rc = 0%Z) as -> by (by destruct (decide (rc = 0%Z))).
      destruct (decode out) as [s'|] eqn:Hdec.
      * split; [|split]; [| |done].
        -- intros s. split.
           ++ intros [= <-]. by exists elapsed, out, err.
           ++ intros (? & ? & ? & [= _ <- _] & ?). congruence.
        -- split; [done|]. intros (? & ? & ? & [= _ <- _] & ?). congruence.
      * split; [|split]; [| |done].
        -- intros s. split; [done|].
           intros (? & ? & ? & [= _ <- _] & ?). congruence.
        -- split; [|done]. intros _. by exists elapsed, out, err.
  - split; [|split]; [| |done].
    + intros s. split; [done|]. by intros (? & ? & ? & ? & _).
    + split; [done|]. by intros (? & ? & ? & ? & _).
  - split; [|split]; [| |done].
    + intros s. split; [done|]. by intros (? & ? & ? & ? & _).
    + split; [done|]. by intros (? & ? & ? & ? & _).
Qed.

(** X16: the version [check_version] finds is three numbers that are not
    negative. A version equal to [required_version] passes, and a
    requirement of up to three numbers that are zero or less rejects no
    version. *)
Theorem found_version_bounds self elapsed out err found :
  child [str_path (_executable self); "--allow-multiple-assignments";
         "--version"] = Exits elapsed 0 out err →
  found_version out = Some found →
  length found = 3
  ∧ Forall (λ x, (0 ≤ x)%Z) found
  ∧ (found = required_version → result (check_version self) = Return tt)
  ∧ (Forall (λ r, (r ≤ 0)%Z) required_version →
       length required_version ≤ 3 →
       result (check_version self) = Return tt).
Proof.
  intros Hchild Hfound.
  destruct (VersionMore.found_version_Some out found Hfound) as [Hlen Hpos].
  destruct (result_version_calls self) as [Hres _].
  rewrite Hchild in Hres. simpl in Hres. unfold verdict in Hres.
  rewrite Hfound in Hres. rewrite Hres.
  split; [done|]. split; [done|]. split.
  - intros <-. by rewrite VersionMore.tuple_lt_irrefl.
  - intros Hreq Hshort.
    rewrite VersionMore.tuple_lt_nonpositive; [done..|lia].
Qed.

(** X17: an executable that prints [version a.b.c] in decimal, with no
    digit before it and no digit right after it, is found to have the
    version [(a, b, c)], and [check_version] rejects it exactly when
    [(a, b, c)] is below [required_version]. *)
Theorem check_version_banner self elapsed pre (a b c : Z) suf err :
  (0 ≤ a)%Z → (0 ≤ b)%Z → (0 ≤ c)%Z → no_digit pre → no_digit_first suf →
  child [str_path (_executable self); "--allow-multiple-assignments";
         "--version"] = Exits elapsed 0 (banner pre a b c suf) err →
  found_version (banner pre a b c suf) = Some [a; b; c]
  ∧ result (check_version self)
    = if tuple_lt [a; b; c] required_version then
        Raise (ConfigurationError (version_message self [a; b; c]))
      else Return tt.
Proof.
  intros Ha Hb Hc Hpre Hsuf Hchild.
  pose proof (VersionMore.found_version_banner pre a b c suf Ha Hb Hc Hpre Hsuf)
    as Hfound.
  split; [done|].
  destruct (result_version_calls self) as [Hres _].
  rewrite Hchild in Hres. simpl in Hres. unfold verdict in Hres.
  by rewrite Hfound in Hres.
Qed.

(** X18: [make_default] binds [default_driver] to the driver and [Instance]
    to [CLIInstance] and touches no other attribute of the package; of two
    calls the later one decides, and a second call with the same driver
    changes nothing. *)
Theorem make_default_last (d1 d2 : CLIDriver) (minizinc : gmap string object) :
  make_default d1 minizinc !! "default_driver" = Some (DriverObject d1)
  ∧ make_default d1 minizinc !! "Instance" = Some CLIInstance
  ∧ (∀ k, k ≠ "default_driver" → k ≠ "Instance" →
       make_default d1 minizinc !! k = minizinc !! k)
  ∧ make_default d2 (make_default d1 minizinc) = make_default d2 minizinc
  ∧ make_default d1 (make_default d1 minizinc) = make_default d1 minizinc.
Proof.
  assert (∀ a b : CLIDriver,
            make_default b (make_default a minizinc) = make_default b minizinc)
    as Hlast.
  { intros a b. unfold make_default. apply map_eq. intros k.
    destruct (decide (k = "Instance")) as [->|HI];
      [by rewrite !lookup_insert_eq|].
    rewrite !(lookup_insert_ne _ "Instance" k) by done.
    destruct (decide (k = "default_driver")) as [->|HD];
      [by rewrite !lookup_insert_eq|].
    rewrite !(lookup_insert_ne _ "default_driver" k) by done.
    rewrite (lookup_insert_ne _ "Instance" k) by done.
    by rewrite (lookup_insert_ne _ "default_driver" k) by done. }
  unfold make_default. split; [|split; [|split; [|split]]].
  - by rewrite lookup_insert_ne, lookup_insert_eq.
  - by rewrite lookup_insert_eq.
  - intros k HD HI. by rewrite !lookup_insert_ne.
  - apply Hlast.
  - apply Hlast.
Qed.


End More.

(** *** On the host [Demo.demo] *)

Import Demo.

Lemma run_returns_witness :
  ∃ elapsed,
    @child demo
      ["/usr/bin/minizinc"; "--solver"; "gecode.msc";
       "--allow-multiple-assignments"; "model.mzn"]
    = Exits elapsed 0 solution [].
Proof.
  destruct (run_returns (H := demo) minizinc [Str "model.mzn"]
              (Some "gecode") (Some 10%Z)
              (Build_CompletedProcess
                 ["/usr/bin/minizinc"; "--solver"; "gecode.msc";
                  "--allow-multiple-assignments"; "model.mzn"]
                 0 solution []) eq_refl)
    as (_ & _ & elapsed & Hchild & _).
  by exists elapsed.
Defined.

Lemma run_raises_witness :
  overruns (H := demo)
    (@child demo
       ["/usr/bin/minizinc"; "--allow-multiple-assignments"; "slow.mzn"])
    10%Z = true.
Proof.
  destruct (run_raises (H := demo) minizinc [Str "slow.mzn"] None (Some 10%Z))
    as [_ Htimeout].
  destruct (Htimeout
              ["/usr/bin/minizinc"; "--allow-multiple-assignments"; "slow.mzn"]
              (Some 10%Z) eq_refl) as (td & Htd & Hover & _).
  injection Htd as <-. exact Hover.
Defined.

Lemma found_version_bounds_witness :
  result (check_version Pinned.minizinc) = Return tt.
Proof.
  destruct (found_version_bounds (H := Pinned.pinned) Pinned.minizinc 1%Z
              new_banner [] [2; 6; 1]%Z eq_refl eq_refl)
    as (_ & _ & Hsame & _).
  apply Hsame. reflexivity.
Defined.

Lemma check_version_banner_witness :
  found_version new_banner = Some [2; 6; 1]%Z
  ∧ result (check_version minizinc) = Return tt.
Proof.
  pose proof (check_version_banner (H := demo) minizinc 1%Z
                (list_byte_of_string "MiniZinc to FlatZinc converter, ")
                2 6 1 (list_byte_of_string ", build 7") []) as Hbanner.
  destruct Hbanner as [Hfound Hres]; try lia.
  - by repeat constructor.
  - by intros b [= <-].
  - reflexivity.
  - split; [exact Hfound | exact Hres].
Defined.


End CLIMore.
